(** * createSequentialEffectRunner: a shallow embedding and its properties

    The runner of [createSequentialEffectRunner.ts] is a closure over four
    variables ([lastEffect], [stopRequested], [currentCleanup], [isLooping])
    and an [async] function [loop] whose body suspends at two [await]s.
    JavaScript runs the code between two suspension points without
    interruption.  The embedding cuts it into stretches, each ending where
    the loop invokes a closure handed to the runner or returns:
    - a call of [run] or [stop], with the start of [loop] when
      [ensureLoop] starts it, up to the first invocation,
    - the code that follows the end of an awaited call, up to the next
      invocation,
    - the [finally] callback registered by [ensureLoop], likewise.
    Effects and cleanups are opaque closures.  They are represented by an
    identity; what they do is chosen by the environment.  An invoked
    closure ends in one of two ways.  It returns, and the [await]
    suspends the loop until the returned value settles.  Or it throws at
    once, and the [catch] of the same [try] runs in the same call: this
    is the settlement [Rejected] arriving before the call is over.  The
    stretches are the same in both cases; [carry_on] puts the stretches
    of one call together.  A call of [run] or [stop] made by the invoked
    closure itself finds [isLooping] set and only writes the two request
    variables. *)

From Stdlib Require Import List Bool Arith Lia.
From Equations Require Import Equations.
From Equations.Prop Require Import Logic.
Import ListNotations.

Set Implicit Arguments.

(** * Part I: the program *)

(** ** Data *)

(** [types.ts]: [Effect] and [Cleanup] are function types; only the identity
    of a closure matters to the runner. *)
Definition Cleanup := nat.
Definition Effect := nat.

(** How an awaited call ends.  [Fulfilled (Some c)] is a value for which
    [typeof v === "function"] holds, [Fulfilled None] any other value. *)
Inductive Settled : Type :=
| Fulfilled (v : option Cleanup)
| Rejected.

(** What an observer of the runner can see, in the order it happens. *)
Inductive Event : Type :=
| RunCalled (e : Effect)                          (* run(e) entered *)
| StopCalled                                      (* stop() entered *)
| Snapshot (shouldStop : bool) (next : option Effect)  (* lines 37-43 passed *)
| CleanupStarted (c : Cleanup)                    (* fn() invoked *)
| CleanupSettled (c : Cleanup) (ok : bool)        (* await fn() over *)
| SetupStarted (e : Effect)                       (* next() invoked *)
| SetupSettled (e : Effect) (o : Settled)         (* await next() over *)
| ErrorReported.                                  (* console.error(e) *)

(** A live activation of [loop]: the invocation whose end it waits for,
    with the locals it captured, or [Returned] when its body is over and
    the [finally] callback has not run yet. *)
Inductive Frame : Type :=
| AwaitCleanup (shouldStop : bool) (next : option Effect) (fn : Cleanup)
| AwaitSetup (next : Effect)
| Returned.

(** The closure's variables, and the activations of [loop] that exist. *)
Record Runner : Type := mkRunner {
  lastEffect : option Effect;
  stopRequested : bool;
  currentCleanup : option Cleanup;
  isLooping : bool;
  loops : list Frame
}.

Definition init : Runner := mkRunner None false None false [].

Definition set_lastEffect (v : option Effect) (r : Runner) : Runner :=
  mkRunner v (stopRequested r) (currentCleanup r) (isLooping r) (loops r).
Definition set_stopRequested (v : bool) (r : Runner) : Runner :=
  mkRunner (lastEffect r) v (currentCleanup r) (isLooping r) (loops r).
Definition set_currentCleanup (v : option Cleanup) (r : Runner) : Runner :=
  mkRunner (lastEffect r) (stopRequested r) v (isLooping r) (loops r).
Definition set_isLooping (v : bool) (r : Runner) : Runner :=
  mkRunner (lastEffect r) (stopRequested r) (currentCleanup r) v (loops r).
Definition set_loops (v : list Frame) (r : Runner) : Runner :=
  mkRunner (lastEffect r) (stopRequested r) (currentCleanup r) (isLooping r) v.

(** ** A state-and-log monad for the synchronous stretches *)

Definition M (A : Type) : Type := Runner -> A * Runner * list Event.

Definition ret {A} (a : A) : M A := fun r => (a, r, []).

Definition bind {A B} (m : M A) (k : A -> M B) : M B :=
  fun r =>
    let '(a, r1, ev1) := m r in
    let '(b, r2, ev2) := k a r1 in
    (b, r2, ev1 ++ ev2).

Definition gets {A} (f : Runner -> A) : M A := fun r => (f r, r, []).
Definition modify (f : Runner -> Runner) : M unit := fun r => (tt, f r, []).
Definition emit (ev : Event) : M unit := fun r => (tt, r, [ev]).

Declare Scope runner_scope.
Delimit Scope runner_scope with runner.
Notation "x <- m ;; k" := (bind m (fun x => k))
  (at level 61, m at next level, right associativity) : runner_scope.
Notation "m ;; k" := (bind m (fun _ => k))
  (at level 61, right associativity) : runner_scope.
Local Open Scope runner_scope.

Definition is_null {A} (o : option A) : bool :=
  match o with None => true | Some _ => false end.

(** ** The body of [loop] *)

(** How a stretch of the [while (true)] body ends. *)
Inductive Flow : Type :=
| Suspend (f : Frame)     (* invoked a closure *)
| Continue                (* back to the top of the loop *)
| Break.                  (* left the loop *)

(** Lines 55-61 up to the invocation [next()] of line 61: what follows
    the cleanup phase, with the iteration's locals [shouldStop] and
    [next].  [Suspend (AwaitSetup e)] says that [e] has been invoked and
    the activation waits for its end, be it the value awaited at line 61
    or an exception thrown at once, which [resume] takes as [Rejected]. *)
Definition after_cleanup (shouldStop : bool) (next : option Effect) : M Flow :=
  if shouldStop then ret Continue
  else match next with
       | Some e => emit (SetupStarted e) ;; ret (Suspend (AwaitSetup e))
       | None => ret Continue
       end.

(** Lines 37-49 up to the invocation [fn()] of line 49, then
    [after_cleanup] when no cleanup is stored.  [Suspend (AwaitCleanup ..)]
    says that [fn] has been invoked and the activation waits for its end,
    be it the value awaited at line 49 or an exception thrown at once,
    which [resume] takes as [Rejected]. *)
Definition iteration : M Flow :=
  shouldStop <- gets stopRequested ;;
  next <- gets lastEffect ;;
  if negb shouldStop && is_null next then ret Break
  else
    modify (set_stopRequested false) ;;
    modify (set_lastEffect None) ;;
    emit (Snapshot shouldStop next) ;;
    cc <- gets currentCleanup ;;
    match cc with
    | Some fn =>
        modify (set_currentCleanup None) ;;
        emit (CleanupStarted fn) ;;
        ret (Suspend (AwaitCleanup shouldStop next fn))
    | None => after_cleanup shouldStop next
    end.

(** Number of requests an iteration would find. *)
Definition pending (r : Runner) : nat :=
  if stopRequested r || negb (is_null (lastEffect r)) then 1 else 0.

(** [while (true) { ... }] run from its top until the activation suspends
    or returns.  No fuel: an iteration that comes back to the top has
    consumed the requests, so the next one breaks. *)
Equations? loop_top (r : Runner) : Frame * Runner * list Event
  by wf (pending r) lt :=
  loop_top r with inspect (iteration r) := {
    | exist _ (Suspend f, r1, ev1) _ := (f, r1, ev1);
    | exist _ (Break, r1, ev1) _ := (Returned, r1, ev1);
    | exist _ (Continue, r1, ev1) Heq :=
        let '(f, r2, ev2) := loop_top r1 in (f, r2, ev1 ++ ev2) }.
Proof.
  clear loop_top. revert Heq.
  unfold iteration, bind, gets, modify, emit, ret, after_cleanup, pending.
  destruct r as [le sr cc il ls]; simpl.
  destruct sr, le, cc; simpl; intros H; inversion H; subst; simpl; lia.
Qed.

(** Resumption of a suspended activation when the awaited call settles:
    the rest of the iteration, up to the next [await] or the loop top. *)
Definition resume (f : Frame) (o : Settled) : M Flow :=
  match f with
  | AwaitCleanup shouldStop next fn =>
      match o with
      | Fulfilled _ => emit (CleanupSettled fn true)
      | Rejected => emit (CleanupSettled fn false) ;; emit ErrorReported
      end ;;
      after_cleanup shouldStop next
  | AwaitSetup next =>
      emit (SetupSettled next o) ;;
      match o with
      | Fulfilled (Some c) => modify (set_currentCleanup (Some c))
      | Fulfilled None => ret tt
      | Rejected => emit ErrorReported
      end ;;
      ret Continue
  | Returned => ret Break
  end.

(** The activation after a synchronous stretch that ended with [fl]. *)
Definition proceed (fl : Flow) (r : Runner) : Frame * Runner * list Event :=
  match fl with
  | Suspend f => (f, r, [])
  | Continue => loop_top r
  | Break => (Returned, r, [])
  end.

(** ** [ensureLoop], [run], [stop] *)

(** Lines 24-27: the call [loop()] runs the body up to its first [await];
    the new activation joins the live ones.  The [finally] callback is
    the input [Finally] below. *)
Definition ensureLoop : M unit := fun r =>
  if isLooping r then (tt, r, [])
  else
    let '(f, r1, evs) := loop_top (set_isLooping true r) in
    (tt, set_loops (loops r1 ++ [f]) r1, evs).

Definition run (effect : Effect) : M unit :=
  emit (RunCalled effect) ;;
  modify (set_lastEffect (Some effect)) ;;
  modify (set_stopRequested false) ;;
  ensureLoop.

Definition stop : M unit :=
  emit StopCalled ;;
  modify (set_lastEffect None) ;;
  modify (set_stopRequested true) ;;
  ensureLoop.

(** Lines 28-31, the callback given to [finally]. *)
Definition finally_callback : M unit :=
  modify (set_isLooping false) ;;
  sr <- gets stopRequested ;;
  le <- gets lastEffect ;;
  if sr || negb (is_null le) then ensureLoop else ret tt.

(** ** Steps *)

(** What can happen to a runner: a call from outside, the settlement of
    the call awaited by the [k]-th activation, the [finally] callback of
    the [k]-th activation. *)
Inductive Input : Type :=
| CallRun (e : Effect)
| CallStop
| Settle (k : nat) (o : Settled)
| Finally (k : nat).

Fixpoint replace_nth {A} (k : nat) (x : A) (l : list A) : list A :=
  match l, k with
  | [], _ => []
  | _ :: t, 0 => x :: t
  | h :: t, S k' => h :: replace_nth k' x t
  end.

Fixpoint remove_nth {A} (k : nat) (l : list A) : list A :=
  match l, k with
  | [], _ => []
  | _ :: t, 0 => t
  | h :: t, S k' => h :: remove_nth k' t
  end.

Definition drop_unit {A B} (x : unit * A * B) : A * B :=
  let '(_, a, b) := x in (a, b).

(** One atomic step; [None] when the input is not enabled. *)
Definition step (i : Input) (r : Runner) : option (Runner * list Event) :=
  match i with
  | CallRun e => Some (drop_unit (run e r))
  | CallStop => Some (drop_unit (stop r))
  | Settle k o =>
      match nth_error (loops r) k with
      | None | Some Returned => None
      | Some f =>
          let '(fl, r1, ev1) := resume f o r in
          let '(f', r2, ev2) := proceed fl r1 in
          Some (set_loops (replace_nth k f' (loops r2)) r2, ev1 ++ ev2)
      end
  | Finally k =>
      match nth_error (loops r) k with
      | Some Returned =>
          Some (drop_unit (finally_callback (set_loops (remove_nth k (loops r)) r)))
      | _ => None
      end
  end.

(** A run of inputs from a state, with the events it produces. *)
Fixpoint exec (ins : list Input) (r : Runner) : option (Runner * list Event) :=
  match ins with
  | [] => Some (r, [])
  | i :: rest =>
      match step i r with
      | None => None
      | Some (r1, ev1) =>
          match exec rest r1 with
          | None => None
          | Some (r2, ev2) => Some (r2, ev1 ++ ev2)
          end
      end
  end.

(** States a runner can be in, with the events so far. *)
Inductive reachable : Runner -> list Event -> Prop :=
| reach_init : reachable init []
| reach_step r tr i r' evs :
    reachable r tr -> step i r = Some (r', evs) -> reachable r' (tr ++ evs).

(** ** Letting the loop go on *)

(** The input that lets the first activation go on: the settlement [o] of
    the call it awaits, or its [finally] callback.  An idle runner has
    none. *)
Definition next_input (o : Settled) (r : Runner) : option Input :=
  match loops r with
  | [] => None
  | Returned :: _ => Some (Finally 0)
  | _ :: _ => Some (Settle 0 o)
  end.

Definition pump (o : Settled) (r : Runner) : Runner * list Event :=
  match next_input o r with
  | None => (r, [])
  | Some i =>
      match step i r with
      | Some x => x
      | None => (r, [])
      end
  end.

(** The runner left alone by its callers while the awaited calls settle
    as [os] says, one after the other. *)
Fixpoint drive (os : list Settled) (r : Runner) : Runner * list Event :=
  match os with
  | [] => (r, [])
  | o :: rest =>
      let '(r1, ev1) := pump o r in
      let '(r2, ev2) := drive rest r1 in
      (r2, ev1 ++ ev2)
  end.

(** ** The synchronous run of the loop, by cases *)

(** What [loop_top] does, by cases on the three variables it reads. *)
Definition loop_top_cases (r : Runner) : Frame * Runner * list Event :=
  let shouldStop := stopRequested r in
  let next := lastEffect r in
  if negb shouldStop && is_null next then (Returned, r, [])
  else
    let r1 := set_lastEffect None (set_stopRequested false r) in
    match currentCleanup r with
    | Some fn =>
        (AwaitCleanup shouldStop next fn, set_currentCleanup None r1,
         [Snapshot shouldStop next; CleanupStarted fn])
    | None =>
        match (if shouldStop then None else next) with
        | Some e => (AwaitSetup e, r1, [Snapshot shouldStop next; SetupStarted e])
        | None => (Returned, r1, [Snapshot shouldStop next])
        end
    end.

(** ** Where a stored cleanup stands, read off the events *)

(** The events about one cleanup come in the order: stored (its setup
    settles with a function), started, settled.  [phase_step] follows them
    and answers [None] as soon as an event comes out of turn: a setup
    started, or a second cleanup stored, while a cleanup is stored or
    running. *)
Inductive Phase : Type :=
| Clean
| Stored (c : Cleanup)
| Draining (c : Cleanup).

Definition phase_step (p : option Phase) (ev : Event) : option Phase :=
  match p with
  | None => None
  | Some ph =>
      match ev with
      | SetupSettled _ (Fulfilled (Some c)) =>
          match ph with Clean => Some (Stored c) | _ => None end
      | CleanupStarted c =>
          match ph with
          | Stored c' => if Nat.eqb c c' then Some (Draining c) else None
          | _ => None
          end
      | CleanupSettled c _ =>
          match ph with
          | Draining c' => if Nat.eqb c c' then Some Clean else None
          | _ => None
          end
      | SetupStarted _ =>
          match ph with Clean => Some Clean | _ => None end
      | _ => Some ph
      end
  end.

Definition phase_from (p : option Phase) (tr : list Event) : option Phase :=
  fold_left phase_step tr p.

Definition phase_of (tr : list Event) : option Phase :=
  phase_from (Some Clean) tr.

Definition stored_phase (cc : option Cleanup) : Phase :=
  match cc with Some c => Stored c | None => Clean end.

(** ** The invariant of reachable states *)

(** The two request variables are never both set. *)
Definition exclusive (r : Runner) : Prop :=
  lastEffect r = None \/ stopRequested r = false.

(** No iteration captured a shutdown together with a task. *)
Definition snapshot_ok (ev : Event) : Prop :=
  match ev with
  | Snapshot true (Some _) => False
  | _ => True
  end.

Definition frame_inv (r : Runner) (tr : list Event) : Prop :=
  match loops r with
  | [] =>
      isLooping r = false /\ lastEffect r = None /\ stopRequested r = false /\
      phase_of tr = Some (stored_phase (currentCleanup r))
  | [Returned] =>
      isLooping r = true /\
      phase_of tr = Some (stored_phase (currentCleanup r))
  | [AwaitSetup _] =>
      isLooping r = true /\ currentCleanup r = None /\
      phase_of tr = Some Clean
  | [AwaitCleanup shouldStop next fn] =>
      isLooping r = true /\ currentCleanup r = None /\
      phase_of tr = Some (Draining fn) /\
      (if shouldStop then next = None else next <> None)
  | _ => False
  end.

Definition Inv (r : Runner) (tr : list Event) : Prop :=
  exclusive r /\ Forall snapshot_ok tr /\ frame_inv r tr.

(** ** Predicates used in the statements *)

(** Nothing requested and nothing stored. *)
Definition quiet (r : Runner) : Prop :=
  lastEffect r = None /\ stopRequested r = false /\ currentCleanup r = None.

(** Events that are the invocation of code handed to the runner. *)
Definition invocation (ev : Event) : bool :=
  match ev with
  | SetupStarted _ | CleanupStarted _ => true
  | _ => false
  end.


(** [x] occurs in the list and [y] occurs later. *)
Inductive in_order (x y : Event) : list Event -> Prop :=
| in_order_here l : In y l -> in_order x y (x :: l)
| in_order_skip z l : in_order x y l -> in_order x y (z :: l).

(** The events of an iteration that captured a shutdown, from its cleanup
    phase on: nothing, or the stored cleanup started and settled. *)
Inductive drain_only : list Event -> Prop :=
| drain_nothing : drain_only []
| drain_fulfilled c : drain_only [CleanupStarted c; CleanupSettled c true]
| drain_rejected c :
    drain_only [CleanupStarted c; CleanupSettled c false; ErrorReported].

(** Some iteration captured the shutdown (and no task), and from then on
    the only events are those of draining the stored cleanup. *)
Inductive shutdown_observed : list Event -> Prop :=
| observed_here b : drain_only b -> shutdown_observed (Snapshot true None :: b)
| observed_later ev l : shutdown_observed l -> shutdown_observed (ev :: l).

(** No iteration captured a task. *)
Definition no_task_taken (ev : Event) : Prop :=
  match ev with
  | Snapshot _ (Some _) => False
  | _ => True
  end.

(** The task most recently handed to [run] and not withdrawn by a later
    [stop], according to the log. *)
Definition latest_request (tr : list Event) : option Effect :=
  fold_left (fun acc ev =>
               match ev with
               | RunCalled e => Some e
               | StopCalled => None
               | _ => acc
               end) tr None.

(** C2 as it is stated: whenever a setup starts, its task is the one most
    recently submitted. *)
Definition starts_only_latest (tr : list Event) : Prop :=
  forall pre e post,
    tr = pre ++ SetupStarted e :: post -> latest_request pre = Some e.

(** ** Concrete runs *)

Definition run_A : list Input := [CallRun 1].

Definition after_run_A : Runner := mkRunner None false None true [AwaitSetup 1].

Definition log_run_A : list Event :=
  [RunCalled 1; Snapshot false (Some 1); SetupStarted 1].

(** A then B submitted while A's setup is in flight; A's setup returns the
    cleanup 7, which settles; B starts. *)
Definition run_A_then_B : list Input :=
  [CallRun 1; CallRun 2; Settle 0 (Fulfilled (Some 7));
   Settle 0 (Fulfilled None)].

Definition after_A_then_B : Runner :=
  mkRunner None false None true [AwaitSetup 2].

Definition log_A_then_B : list Event :=
  [RunCalled 1; Snapshot false (Some 1); SetupStarted 1; RunCalled 2;
   SetupSettled 1 (Fulfilled (Some 7)); Snapshot false (Some 2);
   CleanupStarted 7; CleanupSettled 7 true; SetupStarted 2].

(** A's setup returns the cleanup 7 and nothing else is requested: the
    loop returns, the [finally] callback runs, the runner is idle with the
    cleanup of the active effect stored. *)
Definition run_A_settled : list Input :=
  [CallRun 1; Settle 0 (Fulfilled (Some 7)); Finally 0].

Definition idle_with_cleanup : Runner := mkRunner None false (Some 7) false [].

Definition log_A_settled : list Event :=
  [RunCalled 1; Snapshot false (Some 1); SetupStarted 1;
   SetupSettled 1 (Fulfilled (Some 7))].

(** A's cleanup 7 is running with B captured by the iteration. *)
Definition run_B_captured : list Input :=
  [CallRun 1; CallRun 2; Settle 0 (Fulfilled (Some 7))].

Definition B_captured : Runner :=
  mkRunner None false None true [AwaitCleanup false (Some 2) 7].

Definition log_B_captured : list Event :=
  [RunCalled 1; Snapshot false (Some 1); SetupStarted 1; RunCalled 2;
   SetupSettled 1 (Fulfilled (Some 7)); Snapshot false (Some 2);
   CleanupStarted 7].

(** A's setup is in flight and B has been submitted meanwhile. *)
Definition run_A_B_pending : list Input := [CallRun 1; CallRun 2].

Definition A_running_B_pending : Runner :=
  mkRunner (Some 2) false None true [AwaitSetup 1].

Definition log_A_B_pending : list Event :=
  [RunCalled 1; Snapshot false (Some 1); SetupStarted 1; RunCalled 2].

(** Task 1 is running when task 2 is submitted; the setup of 1 returns the
    cleanup 7; the loop captures 2 and awaits the cleanup; task 3 is
    submitted; the cleanup settles. *)
Definition run_superseded : list Input :=
  [CallRun 1; CallRun 2; Settle 0 (Fulfilled (Some 7)); CallRun 3;
   Settle 0 (Fulfilled None)].

Definition log_superseded : list Event :=
  [RunCalled 1; Snapshot false (Some 1); SetupStarted 1; RunCalled 2;
   SetupSettled 1 (Fulfilled (Some 7)); Snapshot false (Some 2);
   CleanupStarted 7; RunCalled 3; CleanupSettled 7 true].

(** The same through [useSequentialEffect], whose effect calls [run] and
    whose cleanup is [stop]: every change of the dependencies calls
    [stop] and then [run]. *)
Definition hook_superseded : list Input :=
  [CallRun 1; CallStop; CallRun 2; Settle 0 (Fulfilled (Some 7));
   CallStop; CallRun 3; Settle 0 (Fulfilled None)].

Definition log_hook_superseded : list Event :=
  [RunCalled 1; Snapshot false (Some 1); SetupStarted 1; StopCalled;
   RunCalled 2; SetupSettled 1 (Fulfilled (Some 7));
   Snapshot false (Some 2); CleanupStarted 7; StopCalled; RunCalled 3;
   CleanupSettled 7 true].

(** The moment the loop returns in [run_A_settled]. *)
Definition returned_with_cleanup : Runner :=
  mkRunner None false (Some 7) true [Returned].

(** ** Further readings of the log *)

(** Each of the following functions follows one aspect of the log, event
    by event, and answers [None] as soon as an event comes out of turn. *)

(** The request waiting in [stopRequested] and [lastEffect]: written by
    [run] (lines 13-14) and [stop] (lines 19-20), taken by the loop head
    (lines 37-43), which must find what the last call wrote. *)
Definition Request : Type := (bool * option Effect)%type.

Definition same_task (a b : option Effect) : bool :=
  match a, b with
  | Some x, Some y => Nat.eqb x y
  | None, None => true
  | _, _ => false
  end.

Definition request_step (st : option Request) (ev : Event) : option Request :=
  match st with
  | None => None
  | Some (sr, le) =>
      match ev with
      | RunCalled e => Some (false, Some e)
      | StopCalled => Some (true, None)
      | Snapshot s n =>
          if negb sr && is_null le then None
          else if Bool.eqb s sr && same_task n le then Some (false, None)
               else None
      | _ => Some (sr, le)
      end
  end.

(** The task an iteration has captured and not started yet. *)
Definition capture_step (st : option (option Effect)) (ev : Event)
  : option (option Effect) :=
  match st with
  | None => None
  | Some cp =>
      match ev with
      | Snapshot s n =>
          match cp with
          | None => Some (if s then None else n)
          | Some _ => None
          end
      | SetupStarted e =>
          match cp with
          | Some e' => if Nat.eqb e e' then Some None else None
          | None => None
          end
      | _ => Some cp
      end
  end.

(** The call the loop is awaiting. *)
Inductive Flight : Type :=
| NoFlight
| InSetup (e : Effect)
| InCleanup (c : Cleanup).

Definition flight_step (st : option Flight) (ev : Event) : option Flight :=
  match st with
  | None => None
  | Some fl =>
      match ev with
      | SetupStarted e =>
          match fl with NoFlight => Some (InSetup e) | _ => None end
      | CleanupStarted c =>
          match fl with NoFlight => Some (InCleanup c) | _ => None end
      | SetupSettled e _ =>
          match fl with
          | InSetup e' => if Nat.eqb e e' then Some NoFlight else None
          | _ => None
          end
      | CleanupSettled c _ =>
          match fl with
          | InCleanup c' => if Nat.eqb c c' then Some NoFlight else None
          | _ => None
          end
      | _ => Some fl
      end
  end.

(** An awaited call that ended in the [catch] block. *)
Definition failure (ev : Event) : bool :=
  match ev with
  | SetupSettled _ Rejected | CleanupSettled _ false => true
  | _ => false
  end.

(** Whether a report is owed: [true] right after a failure, until the
    [console.error] that follows it. *)
Definition report_step (st : option bool) (ev : Event) : option bool :=
  match st with
  | None => None
  | Some true =>
      match ev with ErrorReported => Some false | _ => None end
  | Some false =>
      match ev with
      | ErrorReported => None
      | _ => Some (failure ev)
      end
  end.

(** What the state says about each of them. *)
Definition captured_of (r : Runner) : option Effect :=
  match loops r with
  | AwaitCleanup _ next _ :: _ => next
  | _ => None
  end.

Definition flight_of (r : Runner) : Flight :=
  match loops r with
  | AwaitSetup e :: _ => InSetup e
  | AwaitCleanup _ _ c :: _ => InCleanup c
  | _ => NoFlight
  end.

Definition Inv_log (r : Runner) (tr : list Event) : Prop :=
  fold_left request_step tr (Some (false, None))
  = Some (stopRequested r, lastEffect r) /\
  fold_left capture_step tr (Some None) = Some (captured_of r) /\
  fold_left flight_step tr (Some NoFlight) = Some (flight_of r) /\
  fold_left report_step tr (Some false) = Some false.

(** Events that are a call of [run] or [stop], or the loop head taking the
    request. *)
Definition on_request (ev : Event) : bool :=
  match ev with
  | RunCalled _ | StopCalled | Snapshot _ _ => true
  | _ => false
  end.

(** Events of the loop head and of the start of a setup. *)
Definition on_capture (ev : Event) : bool :=
  match ev with
  | Snapshot _ _ | SetupStarted _ => true
  | _ => false
  end.

(** Events that move a cleanup between stored, running and done, or start
    a setup. *)
Definition on_cleanup (ev : Event) : bool :=
  match ev with
  | SetupSettled _ (Fulfilled (Some _)) | CleanupStarted _
  | CleanupSettled _ _ | SetupStarted _ => true
  | _ => false
  end.

(** Every cleanup that a setup returned has been started and has settled
    since. *)
Definition all_drained (tr : list Event) : Prop :=
  forall pre a c post,
    tr = pre ++ SetupSettled a (Fulfilled (Some c)) :: post ->
    exists m1 m2 ok m3,
      post = m1 ++ CleanupStarted c :: m2 ++ CleanupSettled c ok :: m3.

(** How many steps of the loop an undisturbed runner needs at most to be
    idle. *)
Definition distance (r : Runner) : nat :=
  let waiting := negb (is_null (lastEffect r)) in
  match loops r with
  | [] => 0
  | Returned :: _ =>
      if stopRequested r || waiting
      then 2 + (if waiting then 1 else 0)
             + (if is_null (currentCleanup r) then 0 else 1)
      else 1
  | AwaitSetup _ :: _ =>
      if waiting then 4 else if stopRequested r then 3 else 2
  | AwaitCleanup _ (Some _) _ :: _ =>
      if waiting then 5 else if stopRequested r then 4 else 3
  | AwaitCleanup _ None _ :: _ =>
      if waiting then 3 else 2
  end.

(** ** The hook *)

(** [useSequentialEffect.ts].  The function given to [useEffect] calls
    [runner.run(effect)] and returns [runner.stop] as its cleanup
    (lines 18-22).  [useEffect] runs that function after the first render,
    runs the returned cleanup and then the function of the new render when
    the dependencies change, and runs the cleanup when the component is
    removed. *)
Inductive Lifecycle : Type :=
| Mount (effect : Effect)
| Update (effect : Effect)
| Unmount.

Definition useSequentialEffect (l : Lifecycle) : list Input :=
  match l with
  | Mount effect => [CallRun effect]
  | Update effect => [CallStop; CallRun effect]
  | Unmount => [CallStop]
  end.

(** What settling the awaited cleanup [c] with [o] adds to the log. *)
Definition cleanup_settled (c : Cleanup) (o : Settled) : list Event :=
  match o with
  | Fulfilled _ => [CleanupSettled c true]
  | Rejected => [CleanupSettled c false; ErrorReported]
  end.

(** The closures that a component mounted with [e] and then removed gets
    invoked, when the setup of [e] answers [o]. *)
Definition mount_unmount_calls (e : Effect) (o : Settled) : list Event :=
  SetupStarted e ::
  match o with
  | Fulfilled (Some c) => [CleanupStarted c]
  | _ => []
  end.

(** Counting the calls of [run] and the starts of a task in a log. *)
Definition is_run (e : Effect) (ev : Event) : bool :=
  match ev with RunCalled x => Nat.eqb x e | _ => false end.

Definition is_start (e : Effect) (ev : Event) : bool :=
  match ev with SetupStarted x => Nat.eqb x e | _ => false end.

Definition times (p : Event -> bool) (tr : list Event) : nat :=
  length (filter p tr).

(** Starts of [e] still to come for the calls already made: one if [e] is
    the pending task, one if an iteration has captured [e]. *)
Definition owed_starts (e : Effect) (r : Runner) : nat :=
  (if same_task (lastEffect r) (Some e) then 1 else 0)
  + (if same_task (captured_of r) (Some e) then 1 else 0).

(** ** Whole calls *)

(** The functions above end a stretch at every invocation of a closure.
    In the source a closure that throws at once is caught in the same
    call, which goes on with the [catch] and what follows it.  A whole
    call is therefore its first stretch followed, for every closure that
    throws at once, by the stretch that the settlement [Rejected] of that
    closure starts. *)

(** A call of the runner made by a closure while it runs. *)
Inductive Call : Type :=
| ReRun (e : Effect)
| ReStop.

(** What an invoked closure does before control comes back to the loop:
    the calls of the runner it makes, and whether it ends by throwing
    (then the [catch] runs at once) or by returning (then the [await]
    suspends the loop). *)
Record Sync : Type := mkSync {
  reentrant : list Call;
  throws : bool
}.

Definition reenter (c : Call) : Input :=
  match c with
  | ReRun e => CallRun e
  | ReStop => CallStop
  end.

(** The stretch ended by invoking a closure. *)
Definition ends_with_invocation (evs : list Event) : bool :=
  match rev evs with
  | ev :: _ => invocation ev
  | [] => false
  end.

Fixpoint reentrant_calls (cs : list Call) (x : Runner * list Event)
  : Runner * list Event :=
  match cs with
  | [] => x
  | c :: rest =>
      match step (reenter c) (fst x) with
      | Some (r1, ev1) => reentrant_calls rest (r1, snd x ++ ev1)
      | None => x
      end
  end.

(** The rest of a call whose first stretch gave [x], when the closures
    invoked in the call behave as [ss] says, one after the other: a
    closure that throws at once is the settlement [Rejected] of the
    activation [k] inside the same call, and the call goes on with the
    [catch] and what follows it; a closure that returns ends the call. *)
Fixpoint carry_on (k : nat) (ss : list Sync) (x : Runner * list Event)
  : Runner * list Event :=
  match ss with
  | [] => x
  | s :: rest =>
      if ends_with_invocation (snd x) then
        let x1 := reentrant_calls (reentrant s) x in
        if throws s then
          match step (Settle k Rejected) (fst x1) with
          | Some (r2, ev2) => carry_on k rest (r2, snd x1 ++ ev2)
          | None => x1
          end
        else x1
      else x
  end.

(** The activation started last. *)
Definition newest (r : Runner) : nat := pred (length (loops r)).

(** [run(effect)] from its entry to its return. *)
Definition run_call (effect : Effect) (ss : list Sync) (r : Runner)
  : Runner * list Event :=
  let x := drop_unit (run effect r) in carry_on (newest (fst x)) ss x.

(** [stop()] from its entry to its return. *)
Definition stop_call (ss : list Sync) (r : Runner) : Runner * list Event :=
  let x := drop_unit (stop r) in carry_on (newest (fst x)) ss x.

(** The resumption of the activation [k] up to its next suspension or its
    return. *)
Definition settle_call (k : nat) (o : Settled) (ss : list Sync) (r : Runner)
  : option (Runner * list Event) :=
  match step (Settle k o) r with
  | Some x => Some (carry_on k ss x)
  | None => None
  end.

(** The [finally] callback of the activation [k] from its entry to its
    return. *)
Definition finally_call (k : nat) (ss : list Sync) (r : Runner)
  : option (Runner * list Event) :=
  match step (Finally k) r with
  | Some x => Some (carry_on (newest (fst x)) ss x)
  | None => None
  end.

Definition call (i : Input) (ss : list Sync) (r : Runner)
  : option (Runner * list Event) :=
  match i with
  | CallRun e => Some (run_call e ss r)
  | CallStop => Some (stop_call ss r)
  | Settle k o => settle_call k o ss r
  | Finally k => finally_call k ss r
  end.

(** Calls made one after the other, each with what the closures invoked
    inside it do. *)
Fixpoint exec_calls (cs : list (Input * list Sync)) (r : Runner)
  : option (Runner * list Event) :=
  match cs with
  | [] => Some (r, [])
  | (i, ss) :: rest =>
      match call i ss r with
      | None => None
      | Some (r1, ev1) =>
          match exec_calls rest r1 with
          | None => None
          | Some (r2, ev2) => Some (r2, ev1 ++ ev2)
          end
      end
  end.

(** Whether the first closure invoked in a call throws at once. *)
Definition throws_at_once (ss : list Sync) : bool :=
  match ss with
  | s :: _ => throws s
  | [] => false
  end.




(** ** The drain of a stored cleanup *)

(** Where a stored cleanup stands, and whether the loop head has just
    taken a request while a cleanup was stored: the next event is then
    the start of that cleanup (lines 42-49). *)
Definition drain_step (st : option (Phase * bool)) (ev : Event)
  : option (Phase * bool) :=
  match st with
  | None => None
  | Some (ph, true) =>
      match ev, ph with
      | CleanupStarted c, Stored c' =>
          if Nat.eqb c c' then Some (Draining c, false) else None
      | _, _ => None
      end
  | Some (ph, false) =>
      match ev with
      | Snapshot _ _ =>
          Some (ph, match ph with Stored _ => true | _ => false end)
      | _ =>
          match phase_step (Some ph) ev with
          | Some ph' => Some (ph', false)
          | None => None
          end
      end
  end.

Definition current_phase (r : Runner) : Phase :=
  match loops r with
  | AwaitCleanup _ _ c :: _ => Draining c
  | _ => stored_phase (currentCleanup r)
  end.

Definition Inv_drain (r : Runner) (tr : list Event) : Prop :=
  fold_left drain_step tr (Some (Clean, false)) = Some (current_phase r, false).

Definition not_draining (ph : Phase) : Prop :=
  match ph with Draining _ => False | _ => True end.

(** A cleanup that is stored while nothing is requested was returned by a
    setup after which no call of [run] or [stop] and no iteration of the
    loop took place. *)
Definition Inv_stored (r : Runner) (tr : list Event) : Prop :=
  forall c,
    currentCleanup r = Some c ->
    lastEffect r = None -> stopRequested r = false ->
    exists pre a post,
      tr = pre ++ SetupSettled a (Fulfilled (Some c)) :: post /\
      Forall (fun ev => on_request ev = false) post.

Definition is_any_run (ev : Event) : bool :=
  match ev with RunCalled _ => true | _ => false end.

(** C5 as it is stated for a task that has not started: after a call of
    [stop], as long as [run] is not called again, no setup starts. *)
Definition stop_discards (tr : list Event) : Prop :=
  forall pre post e,
    tr = pre ++ StopCalled :: post ->
    Forall (fun ev => is_any_run ev = false) post ->
    ~ In (SetupStarted e) post.

(** Task 2 is submitted while the setup of task 1 is awaited; that setup
    returns the cleanup 7; the loop takes task 2 and awaits the cleanup;
    [stop] is called; the cleanup settles. *)
Definition run_stop_late : list Input :=
  [CallRun 1; CallRun 2; Settle 0 (Fulfilled (Some 7)); CallStop;
   Settle 0 (Fulfilled None)].

Definition log_stop_late : list Event :=
  [RunCalled 1; Snapshot false (Some 1); SetupStarted 1; RunCalled 2;
   SetupSettled 1 (Fulfilled (Some 7)); Snapshot false (Some 2);
   CleanupStarted 7; StopCalled; CleanupSettled 7 true; SetupStarted 2].

(** The same through the hook: mounted with 1, updated to 2 while the
    setup of 1 is awaited, removed while the cleanup of 1 is awaited. *)
Definition hook_stop_late : list Input :=
  useSequentialEffect (Mount 1) ++ useSequentialEffect (Update 2)
  ++ [Settle 0 (Fulfilled (Some 7))] ++ useSequentialEffect Unmount
  ++ [Settle 0 (Fulfilled None)].

Definition log_hook_stop_late : list Event :=
  [RunCalled 1; Snapshot false (Some 1); SetupStarted 1; StopCalled;
   RunCalled 2; SetupSettled 1 (Fulfilled (Some 7));
   Snapshot false (Some 2); CleanupStarted 7; StopCalled;
   CleanupSettled 7 true; SetupStarted 2].

(** Effect 1 is mounted and returns the cleanup 7; the component is
    removed, and the cleanup fails; effect 2 is mounted and returns the
    cleanup 8; the runner is idle with 8 stored. *)
Definition run_remounted : list Input :=
  [CallRun 1; Settle 0 (Fulfilled (Some 7)); Finally 0; CallStop;
   Settle 0 Rejected; Finally 0; CallRun 2; Settle 0 (Fulfilled (Some 8));
   Finally 0].

Definition remounted : Runner := mkRunner None false (Some 8) false [].

Definition log_remounted : list Event :=
  [RunCalled 1; Snapshot false (Some 1); SetupStarted 1;
   SetupSettled 1 (Fulfilled (Some 7)); StopCalled; Snapshot true None;
   CleanupStarted 7; CleanupSettled 7 false; ErrorReported; RunCalled 2;
   Snapshot false (Some 2); SetupStarted 2;
   SetupSettled 2 (Fulfilled (Some 8))].

(** * Part II: lemmas *)

(** ** The loop's synchronous run *)

Lemma loop_top_by_cases r : loop_top r = loop_top_cases r.
Proof.
  destruct r as [le sr cc il ls].
  destruct sr, le, cc; rewrite loop_top_equation_1; cbn;
    try reflexivity; rewrite loop_top_equation_1; reflexivity.
Qed.

(** The synchronous run always ends after at most two passes through the
    loop head, and leaves no request behind when it ends with a return. *)
Lemma loop_top_returned r f r' evs :
  loop_top r = (f, r', evs) -> f = Returned ->
  lastEffect r' = None /\ stopRequested r' = false.
Proof.
  rewrite loop_top_by_cases. destruct r as [le sr cc il ls].
  destruct sr, le, cc; cbn; intros H Hf; inversion H; subst;
    try discriminate; cbn; auto.
Qed.

(** ** Tactics *)

(** Unfolds the runner's code on a state whose shape is known. *)
Ltac sync :=
  repeat (progress
            cbv beta iota zeta delta
              [step run stop ensureLoop finally_callback resume proceed
               after_cleanup loop_top_cases bind ret gets modify emit
               next_input pump drive
               drop_unit is_null negb andb orb app nth_error
               replace_nth remove_nth
               set_lastEffect set_stopRequested set_currentCleanup
               set_isLooping set_loops
               lastEffect stopRequested currentCleanup isLooping loops]
          || rewrite loop_top_by_cases).

Ltac sync_in H :=
  repeat (progress
            cbv beta iota zeta delta
              [step run stop ensureLoop finally_callback resume proceed
               after_cleanup loop_top_cases bind ret gets modify emit
               next_input pump drive
               drop_unit is_null negb andb orb app nth_error
               replace_nth remove_nth
               set_lastEffect set_stopRequested set_currentCleanup
               set_isLooping set_loops
               lastEffect stopRequested currentCleanup isLooping loops] in H
          || rewrite loop_top_by_cases in H).

(** Splits a state that satisfies [frame_inv] into its possible shapes. *)
Ltac shapes r H :=
  destruct r as [le sr cc il ls];
  destruct H as (Hex & Hsnap & Hfr);
  unfold frame_inv, exclusive in Hex, Hfr; cbn in Hex, Hfr;
  destruct ls as [|[s n fn|e0|] [|? ?]]; try contradiction;
  [ destruct Hfr as (-> & -> & -> & Hph)
  | destruct Hfr as (-> & -> & Hph & Hn)
  | destruct Hfr as (-> & -> & Hph)
  | destruct Hfr as (-> & Hph) ].

(** Closes [~ In x l] for a list [l] given by its elements, none of which
    has the constructor of [x]. *)
Ltac not_member :=
  let H := fresh "H" in
  intros H; cbn [In] in H;
  repeat match type of H with
         | _ \/ _ => destruct H as [H|H]; [discriminate H|]
         end;
  exact H.

(** Closes [In x l] when [x] is one of the listed elements of [l]. *)
Ltac member := cbn [In app]; repeat (first [left; reflexivity | right]).

Ltac find_in_order :=
  repeat (first [ apply in_order_here; solve [member]
                | apply in_order_skip ]).

Ltac find_shutdown :=
  repeat (first [ apply observed_here; solve [constructor]
                | apply observed_later ]).

(** ** The invariant is kept by every step *)

Lemma phase_of_app tr evs :
  phase_of (tr ++ evs) = phase_from (phase_of tr) evs.
Proof. unfold phase_of, phase_from. apply fold_left_app. Qed.

Lemma phase_from_none tr : phase_from None tr = None.
Proof. induction tr as [|ev tr IH]; [reflexivity | exact IH]. Qed.

Lemma phase_from_cons p ev tr :
  phase_from p (ev :: tr) = phase_from (phase_step p ev) tr.
Proof. reflexivity. Qed.

Lemma Inv_init : Inv init [].
Proof.
  unfold Inv, exclusive, frame_inv; cbn. repeat split; auto.
Qed.

Lemma Inv_step r tr i r' evs :
  Inv r tr -> step i r = Some (r', evs) -> Inv r' (tr ++ evs).
Proof.
  intros HI Hs. shapes r HI.
  all: destruct i as [e| |k o|k]; try destruct k as [|[|k]];
    try destruct o as [[c|]|]; try destruct cc as [c0|];
    try destruct le as [e1|]; try destruct sr; try destruct s;
    try destruct n as [e2|];
    sync_in Hs; try discriminate; inversion Hs; subst; clear Hs.
  all: try (destruct Hex; discriminate).
  all: try congruence.
  all: unfold Inv, exclusive, frame_inv;
    cbn [loops lastEffect stopRequested currentCleanup isLooping].
  all: rewrite ?phase_of_app, ?Hph.
  all: repeat split; auto; try discriminate.
  all: try (apply Forall_app; split; [assumption | repeat constructor]).
  all: unfold phase_from; cbn; rewrite ?Nat.eqb_refl; cbn; reflexivity.
Qed.

Lemma reachable_Inv r tr : reachable r tr -> Inv r tr.
Proof.
  induction 1 as [|r tr i r' evs _ IH Hs]; [apply Inv_init |].
  eapply Inv_step; eauto.
Qed.

Lemma Inv_phase r tr : Inv r tr -> phase_of tr <> None.
Proof.
  intros HI. shapes r HI; rewrite Hph; discriminate.
Qed.

Lemma Inv_single_loop r tr :
  Inv r tr ->
  length (loops r) <= 1 /\ (isLooping r = true <-> loops r <> []).
Proof.
  intros HI. shapes r HI; cbn; repeat split; auto; try discriminate;
    intros H; exfalso; apply H; reflexivity.
Qed.

(** ** Runs reach reachable states *)

Lemma exec_reachable ins r tr r' evs :
  reachable r tr -> exec ins r = Some (r', evs) -> reachable r' (tr ++ evs).
Proof.
  revert r tr r' evs.
  induction ins as [|i ins IH]; intros r tr r' evs Hr He; cbn in He.
  - inversion He; subst. rewrite app_nil_r. exact Hr.
  - destruct (step i r) as [[r1 ev1]|] eqn:Hs; [|discriminate].
    destruct (exec ins r1) as [[r2 ev2]|] eqn:He2; [|discriminate].
    inversion He; subst. rewrite app_assoc.
    eapply IH; [|exact He2]. eapply reach_step; eauto.
Qed.

Lemma exec_init_reachable ins r tr :
  exec ins init = Some (r, tr) -> reachable r tr.
Proof. intros H. exact (exec_reachable ins reach_init H). Qed.

Lemma pump_reachable o r tr r' evs :
  reachable r tr -> pump o r = (r', evs) -> reachable r' (tr ++ evs).
Proof.
  intros Hr. unfold pump.
  destruct (next_input o r) as [i|].
  - destruct (step i r) as [[r1 ev1]|] eqn:Hs; intros H; inversion H; subst.
    + eapply reach_step; eauto.
    + now rewrite app_nil_r.
  - intros H; inversion H; subst. now rewrite app_nil_r.
Qed.

Lemma drive_reachable os r tr r' evs :
  reachable r tr -> drive os r = (r', evs) -> reachable r' (tr ++ evs).
Proof.
  revert r tr r' evs.
  induction os as [|o os IH]; intros r tr r' evs Hr Hd; cbn [drive] in Hd.
  - inversion Hd; subst. now rewrite app_nil_r.
  - destruct (pump o r) as [r1 ev1] eqn:Hp.
    destruct (drive os r1) as [r2 ev2] eqn:Hd2.
    inversion Hd; subst. rewrite app_assoc.
    eapply IH; [|exact Hd2]. eapply pump_reachable; eauto.
Qed.

Lemma drive_app os1 os2 r :
  drive (os1 ++ os2) r =
  let '(r1, ev1) := drive os1 r in
  let '(r2, ev2) := drive os2 r1 in
  (r2, ev1 ++ ev2).
Proof.
  revert r. induction os1 as [|o os1 IH]; intros r; cbn [drive app].
  - destruct (drive os2 r) as [r2 ev2]. reflexivity.
  - destruct (pump o r) as [r1 ev1]. rewrite IH.
    destruct (drive os1 r1) as [r2 ev2].
    destruct (drive os2 r2) as [r3 ev3].
    now rewrite app_assoc.
Qed.

Lemma drive_idle os r : loops r = [] -> drive os r = (r, []).
Proof.
  intros Hl. induction os as [|o os IH]; cbn [drive]; [reflexivity|].
  unfold pump, next_input. rewrite Hl, IH. reflexivity.
Qed.

Lemma drive_after_four o1 o2 o3 o4 rest r ev :
  drive [o1; o2; o3; o4] r = (init, ev) ->
  drive (o1 :: o2 :: o3 :: o4 :: rest) r = (init, ev).
Proof.
  intros H. change (o1 :: o2 :: o3 :: o4 :: rest) with ([o1; o2; o3; o4] ++ rest).
  rewrite drive_app, H, drive_idle by reflexivity.
  now rewrite app_nil_r.
Qed.

(** ** Ordering facts read off [phase_step] *)

(** While a cleanup is running, no setup can start before it settles. *)
Lemma draining_gate c mid b post :
  phase_from (Some (Draining c)) (mid ++ SetupStarted b :: post) <> None ->
  exists m2 ok m3, mid = m2 ++ CleanupSettled c ok :: m3.
Proof.
  induction mid as [|ev mid IH]; simpl app; intros H;
    rewrite phase_from_cons in H.
  - now rewrite phase_from_none in H.
  - destruct ev as [e| |s n|c'|c' ok|e|e [[c'|]|]|]; cbn [phase_step] in H;
      try (destruct (IH H) as (m2 & ok' & m3 & ->);
           eexists (_ :: m2), ok', m3; reflexivity);
      try (now rewrite phase_from_none in H).
    destruct (Nat.eqb_spec c' c) as [->|_].
    + exists [], ok, mid. reflexivity.
    + now rewrite phase_from_none in H.
Qed.

(** While a cleanup is stored, no setup can start before the cleanup has
    been started and has settled. *)
Lemma stored_gate c mid b post :
  phase_from (Some (Stored c)) (mid ++ SetupStarted b :: post) <> None ->
  exists m1 m2 ok m3,
    mid = m1 ++ CleanupStarted c :: m2 ++ CleanupSettled c ok :: m3.
Proof.
  induction mid as [|ev mid IH]; simpl app; intros H;
    rewrite phase_from_cons in H.
  - now rewrite phase_from_none in H.
  - destruct ev as [e| |s n|c'|c' ok|e|e [[c'|]|]|]; cbn [phase_step] in H;
      try (destruct (IH H) as (m1 & m2 & ok' & m3 & ->);
           eexists (_ :: m1), m2, ok', m3; reflexivity);
      try (now rewrite phase_from_none in H).
    destruct (Nat.eqb_spec c' c) as [->|_].
    + destruct (draining_gate _ _ _ _ H) as (m2 & ok & m3 & ->).
      exists [], m2, ok, m3. reflexivity.
    + now rewrite phase_from_none in H.
Qed.

(** A log that [phase_step] accepts was in phase [Stored c] right after a
    setup settled with the cleanup [c]. *)
Lemma phase_after_store pre a c rest :
  phase_of (pre ++ SetupSettled a (Fulfilled (Some c)) :: rest) <> None ->
  phase_of (pre ++ SetupSettled a (Fulfilled (Some c)) :: rest)
  = phase_from (Some (Stored c)) rest.
Proof.
  rewrite phase_of_app, phase_from_cons.
  destruct (phase_of pre) as [[|c'|c']|]; cbn [phase_step];
    rewrite ?phase_from_none; congruence.
Qed.

(** ... and in phase [Draining c] right after the cleanup [c] was started. *)
Lemma phase_after_start pre c rest :
  phase_of (pre ++ CleanupStarted c :: rest) <> None ->
  phase_of (pre ++ CleanupStarted c :: rest)
  = phase_from (Some (Draining c)) rest.
Proof.
  rewrite phase_of_app, phase_from_cons.
  destruct (phase_of pre) as [[|c'|c']|]; cbn [phase_step];
    rewrite ?phase_from_none; try congruence.
  destruct (Nat.eqb_spec c c') as [->|_];
    rewrite ?phase_from_none; congruence.
Qed.

(** ** Requests are served *)

Lemma in_order_app x y l l' : in_order x y l -> in_order x y (l ++ l').
Proof.
  induction 1 as [l Hin|z l _ IH]; cbn.
  - apply in_order_here. apply in_or_app. now left.
  - apply in_order_skip. exact IH.
Qed.

(** A task handed to [run] is captured by an iteration and its setup is
    started within three further stretches of the loop, whatever the
    awaited calls answer, when no other call comes in between. *)
Lemma run_served r tr e o1 o2 o3 :
  Inv r tr ->
  exists r1 ev1 r2 ev2,
    run e r = (tt, r1, ev1) /\
    drive [o1; o2; o3] r1 = (r2, ev2) /\
    in_order (Snapshot false (Some e)) (SetupStarted e) (ev1 ++ ev2).
Proof.
  intros HI. shapes r HI.
  all: try destruct cc as [c0|]; try destruct s; try destruct n as [e2|];
    try congruence.
  all: destruct o1 as [[c1|]|], o2 as [[c2|]|], o3 as [[c3|]|].
  all: do 4 eexists; sync; (split; [reflexivity|]); sync;
    (split; [reflexivity|]); cbn [app]; find_in_order.
Qed.

(** A shutdown asked with [stop] is captured by an iteration, the stored
    cleanup is drained and the runner is idle with nothing left within
    four further stretches of the loop, whatever the awaited calls answer,
    when no other call comes in between; no task is captured meanwhile. *)
Lemma stop_served r tr o1 o2 o3 o4 :
  Inv r tr ->
  exists r1 ev1 ev2,
    stop r = (tt, r1, ev1) /\
    lastEffect r1 = None /\ isLooping r1 = true /\
    (stopRequested r1 = true \/ In (Snapshot true None) ev1) /\
    drive [o1; o2; o3; o4] r1 = (init, ev2) /\
    shutdown_observed (ev1 ++ ev2) /\
    Forall no_task_taken (ev1 ++ ev2).
Proof.
  intros HI. shapes r HI.
  all: try destruct cc as [c0|]; try destruct s; try destruct n as [e2|];
    try congruence.
  all: destruct o1 as [[c1|]|], o2 as [[c2|]|], o3 as [[c3|]|],
         o4 as [[c4|]|].
  all: do 3 eexists; sync; (split; [reflexivity|]);
    (split; [reflexivity|]); (split; [reflexivity|]);
    (split; [first [left; reflexivity | right; solve [member]]|]);
    sync; (split; [reflexivity|]); cbn [app];
    (split; [find_shutdown | repeat (constructor; cbn)]).
Qed.

(** ** The concrete runs are runs of the runner *)

Lemma reach_run_A : reachable after_run_A log_run_A.
Proof. apply (exec_init_reachable run_A). reflexivity. Defined.

Lemma reach_A_then_B : reachable after_A_then_B log_A_then_B.
Proof. apply (exec_init_reachable run_A_then_B). reflexivity. Defined.

Lemma reach_A_settled : reachable idle_with_cleanup log_A_settled.
Proof. apply (exec_init_reachable run_A_settled). reflexivity. Defined.

Lemma reach_B_captured : reachable B_captured log_B_captured.
Proof. apply (exec_init_reachable run_B_captured). reflexivity. Defined.

Lemma reach_A_B_pending : reachable A_running_B_pending log_A_B_pending.
Proof. apply (exec_init_reachable run_A_B_pending). reflexivity. Defined.

(** ** Logs followed by a step function *)

Section Followed.

Variable S : Type.
Variable f : option S -> Event -> option S.
Hypothesis f_none : forall ev, f None ev = None.

Lemma followed_none tr : fold_left f tr None = None.
Proof.
  induction tr as [|ev tr IH]; cbn; [reflexivity|].
  rewrite f_none. exact IH.
Qed.

(** An accepted log was accepted up to each of its events. *)
Lemma followed_before s0 pre ev post :
  fold_left f (pre ++ ev :: post) (Some s0) <> None ->
  exists s s',
    fold_left f pre (Some s0) = Some s /\ f (Some s) ev = Some s' /\
    fold_left f (pre ++ ev :: post) (Some s0) = fold_left f post (Some s').
Proof.
  rewrite fold_left_app. cbn [fold_left].
  destruct (fold_left f pre (Some s0)) as [s|].
  - destruct (f (Some s) ev) as [s'|] eqn:Hev.
    + intros _. exists s, s'. auto.
    + rewrite followed_none. congruence.
  - rewrite f_none, followed_none. congruence.
Qed.

Variable P : Event -> bool.
Hypothesis f_keeps : forall s ev, P ev = false -> f (Some s) ev = Some s.

(** The last event of a kind [P], when all other events keep the
    state: it decides the state the log is in. *)
Lemma followed_last s0 s pre :
  fold_left f pre (Some s0) = Some s ->
  (s = s0 /\ Forall (fun ev => P ev = false) pre) \/
  exists p1 x p2 s1,
    pre = p1 ++ x :: p2 /\ P x = true /\
    fold_left f p1 (Some s0) = Some s1 /\ f (Some s1) x = Some s /\
    Forall (fun ev => P ev = false) p2.
Proof.
  revert s. induction pre as [|y l IH] using rev_ind; intros s Hrun.
  - cbn in Hrun. left. split; [congruence | constructor].
  - rewrite fold_left_app in Hrun. cbn [fold_left] in Hrun.
    destruct (fold_left f l (Some s0)) as [t|] eqn:Hl;
      [|rewrite f_none in Hrun; discriminate].
    destruct (P y) eqn:Hy.
    + right. exists l, y, [], t. repeat split; auto.
    + rewrite (f_keeps t Hy) in Hrun. inversion Hrun; subst t.
      destruct (IH s eq_refl) as [[-> Hall]|(p1 & x & p2 & s1 & -> & Hx & H1 & H2 & H3)].
      * left. split; [reflexivity|]. apply Forall_app. split; auto.
      * right. exists p1, x, (p2 ++ [y]), s1. rewrite <- app_assoc.
        repeat split; auto. apply Forall_app. split; auto.
Qed.

End Followed.

(** ** Whole calls are runs of the runner *)


Lemma reentrant_calls_extends cs x :
  exists more, snd (reentrant_calls cs x) = snd x ++ more.
Proof.
  revert x. induction cs as [|c cs IH]; intros [r evs]; cbn.
  - exists []. now rewrite app_nil_r.
  - destruct (step (reenter c) r) as [[r1 ev1]|].
    + destruct (IH (r1, evs ++ ev1)) as (more & ->). cbn.
      exists (ev1 ++ more). now rewrite app_assoc.
    + exists []. now rewrite app_nil_r.
Qed.


Lemma carry_on_extends k ss x :
  exists more, snd (carry_on k ss x) = snd x ++ more.
Proof.
  revert x. induction ss as [|s ss IH]; intros x; cbn [carry_on].
  - exists []. now rewrite app_nil_r.
  - destruct (ends_with_invocation (snd x));
      [|exists []; now rewrite app_nil_r].
    destruct (reentrant_calls_extends (reentrant s) x) as (m1 & Hm1).
    destruct (throws s); [|exists m1; exact Hm1].
    destruct (step (Settle k Rejected) (fst (reentrant_calls (reentrant s) x)))
      as [[r2 ev2]|]; [|exists m1; exact Hm1].
    destruct (IH (r2, snd (reentrant_calls (reentrant s) x) ++ ev2))
      as (m2 & ->). cbn. rewrite Hm1.
    exists (m1 ++ ev2 ++ m2). now rewrite !app_assoc.
Qed.





Lemma carry_on_nothing_invoked k ss x :
  ends_with_invocation (snd x) = false -> carry_on k ss x = x.
Proof. destruct ss as [|s ss]; cbn; [reflexivity|]. now intros ->. Qed.

(** ** A stored cleanup is drained when a request is taken *)

Lemma Inv_drain_init : Inv_drain init [].
Proof. reflexivity. Qed.

Lemma Inv_drain_step r tr i r' evs :
  Inv r tr -> Inv_drain r tr -> step i r = Some (r', evs) ->
  Inv_drain r' (tr ++ evs).
Proof.
  intros HI Hd Hs. unfold Inv_drain, current_phase in *. shapes r HI.
  all: cbn in Hd.
  all: destruct i as [e| |k o|k]; try destruct k as [|[|k]];
    try destruct o as [[c|]|]; try destruct cc as [c0|];
    try destruct le as [e1|]; try destruct sr; try destruct s;
    try destruct n as [e2|];
    sync_in Hs; try discriminate; inversion Hs; subst; clear Hs.
  all: try (destruct Hex; discriminate).
  all: try congruence.
  all: cbn [loops currentCleanup].
  all: rewrite fold_left_app, Hd.
  all: cbn; rewrite ?Nat.eqb_refl; reflexivity.
Qed.

Lemma reachable_Inv_drain r tr : reachable r tr -> Inv_drain r tr.
Proof.
  induction 1 as [|r tr i r' evs Hr IH Hs]; [apply Inv_drain_init |].
  eapply Inv_drain_step; eauto. apply reachable_Inv; assumption.
Qed.

Lemma drain_step_none ev : drain_step None ev = None.
Proof. reflexivity. Qed.

Lemma draining_until_settled c l ph :
  fold_left drain_step l (Some (Draining c, false)) = Some (ph, false) ->
  not_draining ph ->
  exists m2 ok m3, l = m2 ++ CleanupSettled c ok :: m3.
Proof.
  induction l as [|ev l IH]; cbn [fold_left]; intros H Hph.
  - inversion H; subst. contradiction.
  - destruct ev as [e| |s n|c'|c' ok|e|e [[c'|]|]|]; cbn in H;
      try (destruct (IH H Hph) as (m2 & ok' & m3 & ->);
           eexists (_ :: m2), ok', m3; reflexivity);
      try (rewrite (followed_none drain_step drain_step_none) in H;
           discriminate H).
    destruct (Nat.eqb_spec c' c) as [->|_].
    + exists [], ok, l. reflexivity.
    + cbn in H. rewrite (followed_none drain_step drain_step_none) in H.
      discriminate H.
Qed.

Lemma stored_until_drained c l ph :
  fold_left drain_step l (Some (Stored c, false)) = Some (ph, false) ->
  not_draining ph ->
  (exists s n, In (Snapshot s n) l) ->
  exists m1 m2 ok m3,
    l = m1 ++ CleanupStarted c :: m2 ++ CleanupSettled c ok :: m3.
Proof.
  induction l as [|ev l IH]; cbn [fold_left]; intros H Hph (s0 & n0 & Hin).
  - destruct Hin.
  - assert (Htail : forall x, x <> ev -> In x (ev :: l) -> In x l)
      by (intros x Hx [E|E]; [congruence | exact E]).
    destruct ev as [e| |s n|c'|c' ok|e|e [[c'|]|]|]; cbn in H;
      try (destruct (IH H Hph) as (m1 & m2 & ok' & m3 & ->);
           [ exists s0, n0; apply Htail; [discriminate | exact Hin]
           | eexists (_ :: m1), m2, ok', m3; reflexivity ]);
      try (rewrite (followed_none drain_step drain_step_none) in H;
           discriminate H).
    + (* the loop head takes a request while [c] is stored *)
      destruct l as [|ev2 l]; [discriminate H|]. cbn [fold_left] in H.
      destruct ev2 as [e| |s2 n2|c'|c' ok|e|e o|]; cbn in H;
        try (rewrite (followed_none drain_step drain_step_none) in H;
             discriminate H).
      destruct (Nat.eqb_spec c' c) as [->|_].
      * destruct (draining_until_settled _ _ H Hph) as (m2 & ok & m3 & ->).
        exists [Snapshot s n], m2, ok, m3. reflexivity.
      * rewrite (followed_none drain_step drain_step_none) in H.
        discriminate H.
    + destruct (Nat.eqb_spec c' c) as [->|_].
      * cbn in H.
        destruct (draining_until_settled _ _ H Hph) as (m2 & ok & m3 & ->).
        exists [], m2, ok, m3. reflexivity.
      * cbn in H. rewrite (followed_none drain_step drain_step_none) in H.
        discriminate H.
Qed.

Lemma Inv_stored_init : Inv_stored init [].
Proof. intros c H. discriminate H. Qed.

Lemma Inv_stored_step r tr i r' evs :
  Inv r tr -> Inv_stored r tr -> step i r = Some (r', evs) ->
  Inv_stored r' (tr ++ evs).
Proof.
  intros HI IH Hs. unfold Inv_stored in *. shapes r HI.
  all: cbn [currentCleanup lastEffect stopRequested] in IH.
  all: destruct i as [e| |k o|k]; try destruct k as [|[|k]];
    try destruct o as [[c|]|]; try destruct cc as [c0|];
    try destruct le as [e1|]; try destruct sr; try destruct s;
    try destruct n as [e2|];
    sync_in Hs; try discriminate; inversion Hs; subst; clear Hs.
  all: try (destruct Hex; discriminate).
  all: try congruence.
  all: cbn [currentCleanup lastEffect stopRequested].
  all: intros c' Hc Hle Hsr; try discriminate; inversion Hc; subst.
  all: first
         [ destruct (IH _ eq_refl eq_refl eq_refl) as (pre & a & post & -> & Hall);
           exists pre, a, post; rewrite app_nil_r; split; [reflexivity | exact Hall]
         | eexists tr, _, []; split; [reflexivity | constructor] ].
Qed.

Lemma reachable_Inv_stored r tr : reachable r tr -> Inv_stored r tr.
Proof.
  induction 1 as [|r tr i r' evs Hr IH Hs]; [apply Inv_stored_init |].
  eapply Inv_stored_step; eauto. apply reachable_Inv; assumption.
Qed.

(** * Part III: the claims *)

(** ** C1: cleanup before the next setup *)

(** C1.  In the log of every reachable state: between the moment a setup
    settles with a cleanup [c] (which line 63 stores) and any later start
    of a setup, the cleanup [c] is started and settles; and between the
    start of a cleanup [c] and any later start of a setup, [c] settles.
    So a task submitted while a cleanup is pending does not start before
    that cleanup has resolved, with success or failure. *)
Theorem C1_cleanup_settles_before_next_setup r tr :
  reachable r tr ->
  (forall pre a c mid b post,
      tr = pre ++ SetupSettled a (Fulfilled (Some c)) :: mid
               ++ SetupStarted b :: post ->
      exists m1 m2 ok m3,
        mid = m1 ++ CleanupStarted c :: m2 ++ CleanupSettled c ok :: m3) /\
  (forall pre c mid b post,
      tr = pre ++ CleanupStarted c :: mid ++ SetupStarted b :: post ->
      exists m2 ok m3, mid = m2 ++ CleanupSettled c ok :: m3).
Proof.
  intros Hr. pose proof (Inv_phase (reachable_Inv Hr)) as Hp. split.
  - intros pre a c mid b post ->.
    rewrite phase_after_store in Hp by exact Hp.
    exact (stored_gate _ _ _ _ Hp).
  - intros pre c mid b post ->.
    rewrite phase_after_start in Hp by exact Hp.
    exact (draining_gate _ _ _ _ Hp).
Qed.

Lemma C1_witness :
  (forall pre a c mid b post,
      log_A_then_B = pre ++ SetupSettled a (Fulfilled (Some c)) :: mid
               ++ SetupStarted b :: post ->
      exists m1 m2 ok m3,
        mid = m1 ++ CleanupStarted c :: m2 ++ CleanupSettled c ok :: m3) /\
  (forall pre c mid b post,
      log_A_then_B = pre ++ CleanupStarted c :: mid ++ SetupStarted b :: post ->
      exists m2 ok m3, mid = m2 ++ CleanupSettled c ok :: m3).
Proof.
  exact (C1_cleanup_settles_before_next_setup reach_A_then_B).
Defined.

(** ** C2: which task starts *)

(** C2 does not hold of the code.  In the two runs above the setup of
    task 2 starts after the cleanup although task 3 has been submitted
    before: the iteration uses the value of [next] it read before the
    [await] of the cleanup. *)
Theorem C2_superseded_task_starts :
  exec run_superseded init
  = Some (mkRunner (Some 3) false None true [AwaitSetup 2],
          log_superseded ++ [SetupStarted 2]) /\
  latest_request log_superseded = Some 3 /\
  ~ starts_only_latest (log_superseded ++ [SetupStarted 2]) /\
  exec hook_superseded init
  = Some (mkRunner (Some 3) false None true [AwaitSetup 2],
          log_hook_superseded ++ [SetupStarted 2]) /\
  latest_request log_hook_superseded = Some 3 /\
  ~ starts_only_latest (log_hook_superseded ++ [SetupStarted 2]).
Proof.
  repeat (split; [reflexivity|]). split; [|repeat (split; [reflexivity|])].
  - intros H. specialize (H log_superseded 2 [] eq_refl). discriminate H.
  - intros H. specialize (H log_hook_superseded 2 [] eq_refl). discriminate H.
Qed.

(** ** C3: when the loop returns *)

(** The cleanup of the effect that is active stays stored: after [run(A)]
    whose setup returns a cleanup the loop returns, and the runner is
    idle, with that cleanup in [currentCleanup]. *)
Lemma idle_keeps_active_cleanup :
  exec [CallRun 1; Settle 0 (Fulfilled (Some 7))] init
  = Some (returned_with_cleanup, log_A_settled) /\
  ~ quiet returned_with_cleanup /\
  reachable idle_with_cleanup log_A_settled /\
  loops idle_with_cleanup = [] /\
  isLooping idle_with_cleanup = false /\
  ~ quiet idle_with_cleanup.
Proof.
  split; [reflexivity|].
  split; [intros (_ & _ & H); discriminate H|].
  split; [exact reach_A_settled|]. split; [reflexivity|].
  split; [reflexivity|]. intros (_ & _ & H). discriminate H.
Qed.

(** C3.  The synchronous run of the loop returns only when neither a task
    nor a shutdown is pending, and the runner is idle only then.  A
    cleanup is awaiting its drain once the loop head has taken a request
    after it was stored: whenever the loop is not awaiting a cleanup, in
    particular when it has returned and when the runner is idle, every
    such cleanup has been started and has settled.  A cleanup still
    stored while the runner is idle is the one of the setup that settled
    last, and neither a call of [run] or [stop] nor an iteration of the
    loop has come since. *)
Theorem C3_exit_only_when_drained r tr :
  reachable r tr ->
  (forall r0 r' evs,
      loop_top r0 = (Returned, r', evs) ->
      lastEffect r' = None /\ stopRequested r' = false) /\
  (loops r = [] ->
   isLooping r = false /\ lastEffect r = None /\ stopRequested r = false) /\
  ((forall s n c, ~ In (AwaitCleanup s n c) (loops r)) ->
   forall pre a c mid s n post,
     tr = pre ++ SetupSettled a (Fulfilled (Some c)) :: mid
              ++ Snapshot s n :: post ->
     exists m1 m2 ok m3,
       mid ++ Snapshot s n :: post
       = m1 ++ CleanupStarted c :: m2 ++ CleanupSettled c ok :: m3) /\
  (loops r = [] ->
   forall c, currentCleanup r = Some c ->
     exists pre a post,
       tr = pre ++ SetupSettled a (Fulfilled (Some c)) :: post /\
       Forall (fun ev => on_request ev = false) post).
Proof.
  intros Hr. pose proof (reachable_Inv Hr) as HI.
  split; [|split; [|split]].
  - intros r0 r' evs H. eapply loop_top_returned; eauto.
  - intros Hl. shapes r HI; try discriminate. auto.
  - intros Hno.
    pose proof (reachable_Inv_drain Hr) as Hd. unfold Inv_drain in Hd.
    assert (Hnd : not_draining (current_phase r)).
    { clear Hd Hr. unfold current_phase. shapes r HI; cbn.
      - now destruct cc.
      - apply (Hno s n fn). now left.
      - exact I.
      - now destruct cc. }
    intros pre a c mid s n post ->.
    assert (Hacc : fold_left drain_step
                     (pre ++ SetupSettled a (Fulfilled (Some c)) :: mid
                          ++ Snapshot s n :: post)
                     (Some (Clean, false)) <> None) by congruence.
    destruct (@followed_before _ drain_step drain_step_none _ _ _ _ Hacc)
      as ([ph0 b0] & st' & _ & Hev & Hrest).
    rewrite Hrest in Hd.
    destruct b0; [destruct ph0; discriminate Hev|].
    destruct ph0; try discriminate Hev. cbn in Hev.
    inversion Hev; subst st'.
    apply (stored_until_drained _ _ Hd Hnd).
    exists s, n. apply in_or_app. right. now left.
  - intros Hl c Hc.
    assert (Hreq : lastEffect r = None /\ stopRequested r = false)
      by (clear Hc Hr; shapes r HI; try discriminate; auto).
    destruct Hreq as [Hle Hsr].
    exact (reachable_Inv_stored Hr Hc Hle Hsr).
Qed.

Lemma C3_witness :
  (forall r0 r' evs,
      loop_top r0 = (Returned, r', evs) ->
      lastEffect r' = None /\ stopRequested r' = false) /\
  (loops remounted = [] ->
   isLooping remounted = false /\ lastEffect remounted = None
   /\ stopRequested remounted = false) /\
  ((forall s n c, ~ In (AwaitCleanup s n c) (loops remounted)) ->
   forall pre a c mid s n post,
     log_remounted
     = pre ++ SetupSettled a (Fulfilled (Some c)) :: mid
           ++ Snapshot s n :: post ->
     exists m1 m2 ok m3,
       mid ++ Snapshot s n :: post
       = m1 ++ CleanupStarted c :: m2 ++ CleanupSettled c ok :: m3) /\
  (loops remounted = [] ->
   forall c, currentCleanup remounted = Some c ->
     exists pre a post,
       log_remounted = pre ++ SetupSettled a (Fulfilled (Some c)) :: post /\
       Forall (fun ev => on_request ev = false) post).
Proof.
  apply (@C3_exit_only_when_drained remounted log_remounted).
  apply (exec_init_reachable run_remounted). reflexivity.
Defined.

(** ** C4: what a call of [run] does *)




(** ** C5: what a call of [stop] does *)

(** C5 does not hold of the code.  In the two runs above the setup of
    task 2 starts after the call of [stop] and without any later call of
    [run]: [stop] clears [lastEffect], but the iteration that is awaiting
    the cleanup has read task 2 into [next] before and starts it when the
    cleanup settles. *)
Theorem C5_stop_keeps_captured_task :
  exec run_stop_late init
  = Some (mkRunner None true None true [AwaitSetup 2], log_stop_late) /\
  ~ stop_discards log_stop_late /\
  exec hook_stop_late init
  = Some (mkRunner None true None true [AwaitSetup 2], log_hook_stop_late) /\
  ~ stop_discards log_hook_stop_late.
Proof.
  split; [reflexivity|]. split; [|split; [reflexivity|]].
  - intros H.
    apply (H [RunCalled 1; Snapshot false (Some 1); SetupStarted 1;
              RunCalled 2; SetupSettled 1 (Fulfilled (Some 7));
              Snapshot false (Some 2); CleanupStarted 7]
             [CleanupSettled 7 true; SetupStarted 2] 2 eq_refl).
    + repeat constructor.
    + cbn. auto.
  - intros H.
    apply (H [RunCalled 1; Snapshot false (Some 1); SetupStarted 1;
              StopCalled; RunCalled 2; SetupSettled 1 (Fulfilled (Some 7));
              Snapshot false (Some 2); CleanupStarted 7]
             [CleanupSettled 7 true; SetupStarted 2] 2 eq_refl).
    + repeat constructor.
    + cbn. auto.
Qed.

(** ** C6: a setup that fails *)

(** C6.  In every reachable state where the setup of [a] is awaited, its
    failure is a step of the loop that reports the error once and goes
    on: no cleanup is stored before or after it and none is started; a
    task [b] submitted meanwhile is captured and its setup started in the
    same stretch; with nothing pending the loop returns, and a task [b]
    submitted later starts as soon as the [finally] callback has run,
    whichever of the two comes first. *)
Theorem C6_setup_failure_isolated r tr k a :
  reachable r tr ->
  nth_error (loops r) k = Some (AwaitSetup a) ->
  exists r' rest,
    step (Settle k Rejected) r
    = Some (r', SetupSettled a Rejected :: ErrorReported :: rest) /\
    currentCleanup r = None /\ currentCleanup r' = None /\
    (forall c, ~ In (CleanupStarted c) rest) /\
    ~ In ErrorReported rest /\
    match lastEffect r with
    | Some b =>
        rest = [Snapshot false (Some b); SetupStarted b] /\
        loops r' = [AwaitSetup b]
    | None =>
        loops r' = [Returned] /\
        (forall b o, exists r1 r2,
            run b r' = (tt, r1, [RunCalled b]) /\
            pump o r1 = (r2, [Snapshot false (Some b); SetupStarted b]) /\
            loops r2 = [AwaitSetup b]) /\
        (forall b o, exists r1 r2,
            pump o r' = (r1, []) /\
            run b r1
            = (tt, r2, [RunCalled b; Snapshot false (Some b); SetupStarted b]) /\
            loops r2 = [AwaitSetup b])
    end.
Proof.
  intros Hr Hk. pose proof (reachable_Inv Hr) as HI.
  shapes r HI; destruct k as [|[|k]]; try discriminate;
    cbn in Hk; inversion Hk; subst.
  destruct le as [b|], sr; try (destruct Hex; discriminate);
    do 2 eexists; sync; (split; [reflexivity|]); cbn;
    repeat split; try not_member; try (intros c; not_member).
  all: intros b o; do 2 eexists; sync; repeat split.
Qed.

Lemma C6_witness :
  exists r' rest,
    step (Settle 0 Rejected) A_running_B_pending
    = Some (r', SetupSettled 1 Rejected :: ErrorReported :: rest) /\
    currentCleanup A_running_B_pending = None /\ currentCleanup r' = None /\
    (forall c, ~ In (CleanupStarted c) rest) /\
    ~ In ErrorReported rest /\
    rest = [Snapshot false (Some 2); SetupStarted 2] /\
    loops r' = [AwaitSetup 2].
Proof.
  exact (C6_setup_failure_isolated 0 reach_A_B_pending eq_refl).
Defined.

(** ** C7: a cleanup that fails *)

(** C7.  In every reachable state where the cleanup [c] is awaited, [c] is
    no longer stored.  Its failure is a step of the loop that reports the
    error once and otherwise ends in the same state, with the same
    further events, as its success: nothing is stored, no cleanup is
    started, and the iteration goes on with the task it captured, or else
    with the loop head, which starts a task submitted meanwhile or
    returns. *)
Theorem C7_cleanup_failure_isolated r tr k shouldStop next c :
  reachable r tr ->
  nth_error (loops r) k = Some (AwaitCleanup shouldStop next c) ->
  currentCleanup r = None /\
  exists r' rest,
    step (Settle k Rejected) r
    = Some (r', CleanupSettled c false :: ErrorReported :: rest) /\
    (forall v, step (Settle k (Fulfilled v)) r
               = Some (r', CleanupSettled c true :: rest)) /\
    currentCleanup r' = None /\
    (forall c', ~ In (CleanupStarted c') rest) /\
    ~ In ErrorReported rest /\
    match next with
    | Some e => rest = [SetupStarted e] /\ loops r' = [AwaitSetup e]
    | None =>
        match lastEffect r with
        | Some b =>
            rest = [Snapshot false (Some b); SetupStarted b] /\
            loops r' = [AwaitSetup b]
        | None => loops r' = [Returned]
        end
    end.
Proof.
  intros Hr Hk. pose proof (reachable_Inv Hr) as HI.
  shapes r HI; destruct k as [|[|k]]; try discriminate;
    cbn in Hk; inversion Hk; subst.
  split; [reflexivity|].
  destruct shouldStop, next as [e|]; try congruence;
    destruct le as [b|], sr; try (destruct Hex; discriminate);
    do 2 eexists; sync; (split; [reflexivity|]); cbn;
    repeat split; try not_member; try (intros c'; not_member).
Qed.

Lemma C7_witness :
  currentCleanup B_captured = None /\
  exists r' rest,
    step (Settle 0 Rejected) B_captured
    = Some (r', CleanupSettled 7 false :: ErrorReported :: rest) /\
    (forall v, step (Settle 0 (Fulfilled v)) B_captured
               = Some (r', CleanupSettled 7 true :: rest)) /\
    currentCleanup r' = None /\
    (forall c', ~ In (CleanupStarted c') rest) /\
    ~ In ErrorReported rest /\
    rest = [SetupStarted 2] /\ loops r' = [AwaitSetup 2].
Proof.
  exact (C7_cleanup_failure_isolated 0 reach_B_captured eq_refl).
Defined.

(** ** C8: one activation of the loop at a time *)

(** C8.  In every reachable state at most one activation of [loop] exists
    (suspended or awaiting its [finally] callback), [isLooping] is set
    exactly when there is one, and while there is one [ensureLoop] changes
    nothing and starts nothing, whoever calls it. *)
Theorem C8_at_most_one_loop r tr :
  reachable r tr ->
  length (loops r) <= 1 /\
  (isLooping r = true <-> loops r <> []) /\
  (loops r <> [] -> ensureLoop r = (tt, r, [])) /\
  (forall e r' evs, run e r = (tt, r', evs) -> length (loops r') <= 1) /\
  (forall r' evs, stop r = (tt, r', evs) -> length (loops r') <= 1).
Proof.
  intros Hr. pose proof (reachable_Inv Hr) as HI.
  destruct (Inv_single_loop HI) as [Hlen Hiff].
  split; [exact Hlen|]. split; [exact Hiff|]. split; [|split].
  - intros Hne. apply Hiff in Hne. unfold ensureLoop. now rewrite Hne.
  - intros e r' evs He.
    assert (Hs : step (CallRun e) r = Some (r', evs))
      by (cbn [step]; rewrite He; reflexivity).
    exact (proj1 (Inv_single_loop (Inv_step _ HI Hs))).
  - intros r' evs He.
    assert (Hs : step CallStop r = Some (r', evs))
      by (cbn [step]; rewrite He; reflexivity).
    exact (proj1 (Inv_single_loop (Inv_step _ HI Hs))).
Qed.

Lemma C8_witness :
  length (loops after_run_A) <= 1 /\
  (isLooping after_run_A = true <-> loops after_run_A <> []) /\
  (loops after_run_A <> [] -> ensureLoop after_run_A = (tt, after_run_A, [])) /\
  (forall e r' evs, run e after_run_A = (tt, r', evs) -> length (loops r') <= 1) /\
  (forall r' evs, stop after_run_A = (tt, r', evs) -> length (loops r') <= 1).
Proof. exact (C8_at_most_one_loop reach_run_A). Defined.

(** ** C9: no call is lost *)

(** C9.  In every reachable state (idle, suspended at either [await], or
    returned with the [finally] callback still to come), when no later
    call replaces the request:
    - after [run e], once the awaited calls have settled three times or
      more, an iteration has captured [e] and the setup of [e] has been
      started after that;
    - after [stop], once they have settled four times or more, an
      iteration has captured the shutdown and the runner is back in its
      initial state.
    The caller does nothing more than the one call. *)
Theorem C9_no_request_lost r tr :
  reachable r tr ->
  (forall e os, 3 <= length os ->
     exists r1 ev1 r2 ev2,
       run e r = (tt, r1, ev1) /\
       drive os r1 = (r2, ev2) /\
       in_order (Snapshot false (Some e)) (SetupStarted e) (ev1 ++ ev2)) /\
  (forall os, 4 <= length os ->
     exists r1 ev1 ev2,
       stop r = (tt, r1, ev1) /\
       drive os r1 = (init, ev2) /\
       shutdown_observed (ev1 ++ ev2)).
Proof.
  intros Hr. pose proof (reachable_Inv Hr) as HI. split.
  - intros e os Hlen.
    destruct os as [|o1 [|o2 [|o3 rest]]]; cbn in Hlen; try lia.
    destruct (run_served e o1 o2 o3 HI) as (r1 & ev1 & r2 & ev2 & Hrun & Hd & Hord).
    destruct (drive rest r2) as [r3 ev3] eqn:Hrest.
    exists r1, ev1, r3, (ev2 ++ ev3). split; [exact Hrun|]. split.
    + change (o1 :: o2 :: o3 :: rest) with ([o1; o2; o3] ++ rest).
      now rewrite drive_app, Hd, Hrest.
    + rewrite app_assoc. now apply in_order_app.
  - intros os Hlen.
    destruct os as [|o1 [|o2 [|o3 [|o4 rest]]]]; cbn in Hlen; try lia.
    destruct (stop_served o1 o2 o3 o4 HI)
      as (r1 & ev1 & ev2 & Hstop & _ & _ & _ & Hd & Hobs & _).
    exists r1, ev1, ev2. split; [exact Hstop|]. split; [|exact Hobs].
    now apply drive_after_four.
Qed.

Lemma C9_witness :
  (forall e os, 3 <= length os ->
     exists r1 ev1 r2 ev2,
       run e B_captured = (tt, r1, ev1) /\
       drive os r1 = (r2, ev2) /\
       in_order (Snapshot false (Some e)) (SetupStarted e) (ev1 ++ ev2)) /\
  (forall os, 4 <= length os ->
     exists r1 ev1 ev2,
       stop B_captured = (tt, r1, ev1) /\
       drive os r1 = (init, ev2) /\
       shutdown_observed (ev1 ++ ev2)).
Proof. exact (C9_no_request_lost reach_B_captured). Defined.

(** ** C10: the two requests exclude each other *)

(** C10.  In every reachable state [lastEffect] is not set together with
    [stopRequested], and no iteration of the loop has captured a shutdown
    together with a task.  States are taken between the synchronous
    stretches of the code, where [run], [stop] and the loop head have each
    written both variables. *)
Theorem C10_requests_exclusive r tr :
  reachable r tr ->
  ~ (lastEffect r <> None /\ stopRequested r = true) /\
  (forall shouldStop next,
      In (Snapshot shouldStop next) tr ->
      ~ (shouldStop = true /\ next <> None)).
Proof.
  intros Hr. destruct (reachable_Inv Hr) as (Hex & Hsnap & _). split.
  - intros [Hle Hsr]. destruct Hex as [H|H]; congruence.
  - intros s n Hin [-> Hn].
    rewrite Forall_forall in Hsnap. specialize (Hsnap _ Hin).
    destruct n; [exact Hsnap | congruence].
Qed.

Lemma C10_witness :
  ~ (lastEffect after_A_then_B <> None /\ stopRequested after_A_then_B = true) /\
  (forall shouldStop next,
      In (Snapshot shouldStop next) log_A_then_B ->
      ~ (shouldStop = true /\ next <> None)).
Proof. exact (C10_requests_exclusive reach_A_then_B). Defined.

(** * Part IV: further properties *)

(** ** The log agrees with the state *)

Lemma Inv_log_init : Inv_log init [].
Proof. repeat split. Qed.

Lemma same_task_refl n : same_task n n = true.
Proof. destruct n; cbn; [apply Nat.eqb_refl | reflexivity]. Qed.

Lemma Inv_log_step r tr i r' evs :
  Inv r tr -> Inv_log r tr -> step i r = Some (r', evs) ->
  Inv_log r' (tr ++ evs).
Proof.
  intros HI (Hreq & Hcap & Hfl & Hrep) Hs. shapes r HI.
  all: unfold captured_of, flight_of in Hcap, Hfl; cbn in Hreq, Hcap, Hfl.
  all: destruct i as [e| |k o|k]; try destruct k as [|[|k]];
    try destruct o as [[c|]|]; try destruct cc as [c0|];
    try destruct le as [e1|]; try destruct sr; try destruct s;
    try destruct n as [e2|];
    sync_in Hs; try discriminate; inversion Hs; subst; clear Hs.
  all: try (destruct Hex; discriminate).
  all: try congruence.
  all: unfold Inv_log, captured_of, flight_of;
    cbn [loops lastEffect stopRequested currentCleanup isLooping].
  all: rewrite !fold_left_app, Hreq, Hcap, Hfl, Hrep.
  all: cbn; rewrite ?Nat.eqb_refl; cbn; repeat split.
Qed.

Lemma reachable_Inv_log r tr : reachable r tr -> Inv_log r tr.
Proof.
  induction 1 as [|r tr i r' evs Hr IH Hs]; [apply Inv_log_init |].
  eapply Inv_log_step; eauto. apply reachable_Inv; assumption.
Qed.

Lemma same_task_eq a b : same_task a b = true -> a = b.
Proof.
  destruct a as [x|], b as [y|]; cbn; try discriminate; auto.
  intros H. apply Nat.eqb_eq in H. now subst.
Qed.

Lemma request_step_none ev : request_step None ev = None.
Proof. reflexivity. Qed.

Lemma request_step_keeps q ev :
  on_request ev = false -> request_step (Some q) ev = Some q.
Proof.
  destruct q as [sr le], ev; cbn; intros H;
    first [discriminate H | reflexivity].
Qed.

Lemma capture_step_none ev : capture_step None ev = None.
Proof. reflexivity. Qed.

Lemma capture_step_keeps cp ev :
  on_capture ev = false -> capture_step (Some cp) ev = Some cp.
Proof.
  destruct ev; cbn; intros H; first [discriminate H | reflexivity].
Qed.

Lemma phase_step_none ev : phase_step None ev = None.
Proof. reflexivity. Qed.

Lemma phase_step_keeps ph ev :
  on_cleanup ev = false -> phase_step (Some ph) ev = Some ph.
Proof.
  destruct ev as [e| |s n|c|c ok|e|e [[c|]|]|]; cbn; intros H;
    first [discriminate H | reflexivity].
Qed.

Lemma flight_step_none ev : flight_step None ev = None.
Proof. reflexivity. Qed.

Lemma report_step_none ev : report_step None ev = None.
Proof. reflexivity. Qed.

(** ** X1: what an iteration captures *)

(** X1.  In the log of every reachable state, the request taken by an
    iteration of the loop is the one written by the last call before it:
    a task [e] was handed over by a call [run e], a shutdown by a call of
    [stop], and between that call and the iteration there is no other
    call and no other iteration.  So a call replaced by a later one
    before the loop head runs is never taken, and no call is taken
    twice. *)
Theorem X1_snapshot_takes_last_call r tr :
  reachable r tr ->
  forall pre s n post,
    tr = pre ++ Snapshot s n :: post ->
    exists p1 p2,
      Forall (fun ev => on_request ev = false) p2 /\
      match n with
      | Some e => s = false /\ pre = p1 ++ RunCalled e :: p2
      | None => s = true /\ pre = p1 ++ StopCalled :: p2
      end.
Proof.
  intros Hr pre s n post ->.
  destruct (reachable_Inv_log Hr) as (Hreq & _).
  assert (Hacc : fold_left request_step (pre ++ Snapshot s n :: post)
                   (Some (false, None)) <> None) by congruence.
  destruct (@followed_before _ request_step request_step_none _ _ _ _ Hacc)
    as ([sr le] & q' & Hpre & Hev & _).
  cbn in Hev.
  destruct (negb sr && is_null le) eqn:Hnone; [discriminate|].
  destruct (Bool.eqb s sr && same_task n le) eqn:Hsame; [|discriminate].
  apply andb_true_iff in Hsame. destruct Hsame as [Hs Hn].
  apply Bool.eqb_prop in Hs. apply same_task_eq in Hn. subst sr le.
  destruct (@followed_last _ request_step request_step_none on_request
              request_step_keeps _ _ _ Hpre)
    as [[Heq _]|(p1 & x & p2 & [sr1 le1] & -> & Hx & _ & Hstep & Hall)].
  - inversion Heq; subst. discriminate Hnone.
  - exists p1, p2. split; [exact Hall|].
    destruct x; try discriminate Hx; cbn in Hstep.
    + inversion Hstep; subst. auto.
    + inversion Hstep; subst. auto.
    + destruct (negb sr1 && is_null le1); [discriminate|].
      destruct (Bool.eqb shouldStop sr1 && same_task next le1);
        [|discriminate].
      inversion Hstep; subst. discriminate Hnone.
Qed.

Lemma X1_witness :
  exists p1 p2,
    Forall (fun ev => on_request ev = false) p2 /\
    false = false /\
    [RunCalled 1; Snapshot false (Some 1); SetupStarted 1; RunCalled 2;
     SetupSettled 1 (Fulfilled (Some 7))] = p1 ++ RunCalled 2 :: p2.
Proof.
  exact (X1_snapshot_takes_last_call reach_A_then_B
           [RunCalled 1; Snapshot false (Some 1); SetupStarted 1; RunCalled 2;
            SetupSettled 1 (Fulfilled (Some 7))]
           false (Some 2)
           [CleanupStarted 7; CleanupSettled 7 true; SetupStarted 2]
           eq_refl).
Defined.

(** ** X2: which task a setup start belongs to *)

(** X2.  In the log of every reachable state, every start of a setup is
    that of the task taken by the last iteration before it, and that
    iteration has started no other setup: a task is started at most once
    for each time the loop head takes it. *)
Theorem X2_setup_start_follows_its_snapshot r tr :
  reachable r tr ->
  forall pre e post,
    tr = pre ++ SetupStarted e :: post ->
    exists p1 p2,
      pre = p1 ++ Snapshot false (Some e) :: p2 /\
      Forall (fun ev => on_capture ev = false) p2.
Proof.
  intros Hr pre e post ->.
  destruct (reachable_Inv_log Hr) as (_ & Hcap & _).
  assert (Hacc : fold_left capture_step (pre ++ SetupStarted e :: post)
                   (Some None) <> None) by congruence.
  destruct (@followed_before _ capture_step capture_step_none _ _ _ _ Hacc)
    as (cp & cp' & Hpre & Hev & _).
  cbn in Hev. destruct cp as [e'|]; [|discriminate].
  destruct (Nat.eqb_spec e e') as [<-|_]; [|discriminate].
  destruct (@followed_last _ capture_step capture_step_none on_capture
              capture_step_keeps _ _ _ Hpre)
    as [[Heq _]|(p1 & x & p2 & cp1 & -> & Hx & _ & Hstep & Hall)];
    [discriminate|].
  exists p1, p2. split; [|exact Hall].
  destruct x; try discriminate Hx; cbn in Hstep.
  - destruct cp1; [discriminate|].
    destruct shouldStop; inversion Hstep; subst. reflexivity.
  - destruct cp1 as [e1|]; [|discriminate].
    destruct (Nat.eqb e0 e1); discriminate.
Qed.

Lemma X2_witness :
  exists p1 p2,
    [RunCalled 1; Snapshot false (Some 1); SetupStarted 1; RunCalled 2;
     SetupSettled 1 (Fulfilled (Some 7)); Snapshot false (Some 2);
     CleanupStarted 7; CleanupSettled 7 true]
    = p1 ++ Snapshot false (Some 2) :: p2 /\
    Forall (fun ev => on_capture ev = false) p2.
Proof.
  exact (X2_setup_start_follows_its_snapshot reach_A_then_B
           [RunCalled 1; Snapshot false (Some 1); SetupStarted 1; RunCalled 2;
            SetupSettled 1 (Fulfilled (Some 7)); Snapshot false (Some 2);
            CleanupStarted 7; CleanupSettled 7 true]
           2 [] eq_refl).
Defined.

(** ** X3: one call in flight *)

Lemma flight_gate_setup a mid y post :
  fold_left flight_step (mid ++ y :: post) (Some (InSetup a)) <> None ->
  invocation y = true ->
  exists o, In (SetupSettled a o) mid.
Proof.
  induction mid as [|ev mid IH]; simpl app; cbn [fold_left]; intros H Hy.
  - destruct y; try discriminate Hy; cbn in H;
      now rewrite (followed_none flight_step flight_step_none) in H.
  - destruct ev as [e| |s n|c|c ok|e|e o|]; cbn [flight_step] in H;
      try (destruct (IH H Hy) as (o' & Hin); exists o'; now right);
      try (now rewrite (followed_none flight_step flight_step_none) in H).
    destruct (Nat.eqb_spec e a) as [->|_].
    + exists o. now left.
    + now rewrite (followed_none flight_step flight_step_none) in H.
Qed.

Lemma flight_gate_cleanup c mid y post :
  fold_left flight_step (mid ++ y :: post) (Some (InCleanup c)) <> None ->
  invocation y = true ->
  exists ok, In (CleanupSettled c ok) mid.
Proof.
  induction mid as [|ev mid IH]; simpl app; cbn [fold_left]; intros H Hy.
  - destruct y; try discriminate Hy; cbn in H;
      now rewrite (followed_none flight_step flight_step_none) in H.
  - destruct ev as [e| |s n|c'|c' ok|e|e o|]; cbn [flight_step] in H;
      try (destruct (IH H Hy) as (o' & Hin); exists o'; now right);
      try (now rewrite (followed_none flight_step flight_step_none) in H).
    destruct (Nat.eqb_spec c' c) as [->|_].
    + exists ok. now left.
    + now rewrite (followed_none flight_step flight_step_none) in H.
Qed.

(** X3.  In the log of every reachable state, a setup or a cleanup is
    started only when the setup or cleanup started before it has settled:
    the runner never has two of the closures handed to it running at the
    same time. *)
Theorem X3_one_call_in_flight r tr :
  reachable r tr ->
  (forall pre a mid y post,
      tr = pre ++ SetupStarted a :: mid ++ y :: post ->
      invocation y = true ->
      exists o, In (SetupSettled a o) mid) /\
  (forall pre c mid y post,
      tr = pre ++ CleanupStarted c :: mid ++ y :: post ->
      invocation y = true ->
      exists ok, In (CleanupSettled c ok) mid).
Proof.
  intros Hr. destruct (reachable_Inv_log Hr) as (_ & _ & Hfl & _).
  split.
  - intros pre a mid y post -> Hy.
    assert (Hacc : fold_left flight_step
                     (pre ++ SetupStarted a :: mid ++ y :: post)
                     (Some NoFlight) <> None) by congruence.
    destruct (@followed_before _ flight_step flight_step_none _ _ _ _ Hacc)
      as (fl & fl' & _ & Hev & Hrest).
    rewrite Hrest in Hacc. destruct fl; try discriminate Hev.
    inversion Hev; subst fl'. exact (flight_gate_setup _ _ _ _ Hacc Hy).
  - intros pre c mid y post -> Hy.
    assert (Hacc : fold_left flight_step
                     (pre ++ CleanupStarted c :: mid ++ y :: post)
                     (Some NoFlight) <> None) by congruence.
    destruct (@followed_before _ flight_step flight_step_none _ _ _ _ Hacc)
      as (fl & fl' & _ & Hev & Hrest).
    rewrite Hrest in Hacc. destruct fl; try discriminate Hev.
    inversion Hev; subst fl'. exact (flight_gate_cleanup _ _ _ _ Hacc Hy).
Qed.

Lemma X3_witness :
  (exists o, In (SetupSettled 1 o)
               [RunCalled 2; SetupSettled 1 (Fulfilled (Some 7));
                Snapshot false (Some 2)]) /\
  (exists ok, In (CleanupSettled 7 ok) [CleanupSettled 7 true]).
Proof.
  split.
  - exact (proj1 (X3_one_call_in_flight reach_A_then_B)
             [RunCalled 1; Snapshot false (Some 1)] 1
             [RunCalled 2; SetupSettled 1 (Fulfilled (Some 7));
              Snapshot false (Some 2)]
             (CleanupStarted 7) [CleanupSettled 7 true; SetupStarted 2]
             eq_refl eq_refl).
  - exact (proj2 (X3_one_call_in_flight reach_A_then_B)
             [RunCalled 1; Snapshot false (Some 1); SetupStarted 1;
              RunCalled 2; SetupSettled 1 (Fulfilled (Some 7));
              Snapshot false (Some 2)] 7
             [CleanupSettled 7 true] (SetupStarted 2) []
             eq_refl eq_refl).
Defined.

(** ** X4: a cleanup is run once, after it was returned *)

(** X4.  In the log of every reachable state, every start of a cleanup
    [c] comes after a setup that returned [c], with no start of a cleanup
    or of a setup and no other returned cleanup in between: the runner
    invokes only cleanups that a setup returned, and each of them at most
    once. *)
Theorem X4_cleanup_started_once_after_stored r tr :
  reachable r tr ->
  forall pre c post,
    tr = pre ++ CleanupStarted c :: post ->
    exists p1 a p2,
      pre = p1 ++ SetupSettled a (Fulfilled (Some c)) :: p2 /\
      Forall (fun ev => on_cleanup ev = false) p2.
Proof.
  intros Hr pre c post ->.
  pose proof (Inv_phase (reachable_Inv Hr)) as Hacc.
  unfold phase_of, phase_from in Hacc.
  destruct (@followed_before _ phase_step phase_step_none _ _ _ _ Hacc)
    as (ph & ph' & Hpre & Hev & _).
  cbn in Hev. destruct ph as [|c'|c']; try discriminate Hev.
  destruct (Nat.eqb_spec c c') as [<-|_]; [|discriminate].
  destruct (@followed_last _ phase_step phase_step_none on_cleanup
              phase_step_keeps _ _ _ Hpre)
    as [[Heq _]|(p1 & x & p2 & ph1 & -> & Hx & _ & Hstep & Hall)];
    [discriminate|].
  destruct x as [e| |s n|c1|c1 ok|e|e [[c1|]|]|]; try discriminate Hx;
    cbn in Hstep.
  - destruct ph1 as [|c2|c2]; try discriminate.
    destruct (Nat.eqb c1 c2); discriminate.
  - destruct ph1 as [|c2|c2]; try discriminate.
    destruct (Nat.eqb c1 c2); discriminate.
  - destruct ph1; discriminate.
  - destruct ph1; try discriminate. inversion Hstep; subst.
    exists p1, e, p2. split; [reflexivity | exact Hall].
Qed.

Lemma X4_witness :
  exists p1 a p2,
    [RunCalled 1; Snapshot false (Some 1); SetupStarted 1; RunCalled 2;
     SetupSettled 1 (Fulfilled (Some 7)); Snapshot false (Some 2)]
    = p1 ++ SetupSettled a (Fulfilled (Some 7)) :: p2 /\
    Forall (fun ev => on_cleanup ev = false) p2.
Proof.
  exact (X4_cleanup_started_once_after_stored reach_A_then_B
           [RunCalled 1; Snapshot false (Some 1); SetupStarted 1; RunCalled 2;
            SetupSettled 1 (Fulfilled (Some 7)); Snapshot false (Some 2)]
           7 [CleanupSettled 7 true; SetupStarted 2] eq_refl).
Defined.

(** ** X5: errors are reported once, where they happen *)

(** X5.  In the log of every reachable state, [console.error] is called
    exactly after each awaited call that fails: every report directly
    follows a setup or cleanup that threw or rejected, and every such
    failure is directly followed by its report. *)
Theorem X5_one_report_per_failure r tr :
  reachable r tr ->
  (forall pre post,
      tr = pre ++ ErrorReported :: post ->
      exists p x, pre = p ++ [x] /\ failure x = true) /\
  (forall pre x post,
      tr = pre ++ x :: post -> failure x = true ->
      exists post', post = ErrorReported :: post').
Proof.
  intros Hr. destruct (reachable_Inv_log Hr) as (_ & _ & _ & Hrep).
  split.
  - intros pre post ->.
    assert (Hacc : fold_left report_step (pre ++ ErrorReported :: post)
                     (Some false) <> None) by congruence.
    destruct (@followed_before _ report_step report_step_none _ _ _ _ Hacc)
      as (st & st' & Hpre & Hev & _).
    destruct st; [|discriminate Hev].
    destruct pre as [|x l _] using rev_ind; [discriminate Hpre|].
    exists l, x. split; [reflexivity|].
    rewrite fold_left_app in Hpre. cbn [fold_left] in Hpre.
    destruct (fold_left report_step l (Some false)) as [[|]|];
      cbn in Hpre; try discriminate Hpre.
    + destruct x; discriminate Hpre.
    + destruct x; try discriminate Hpre; now inversion Hpre.
  - intros pre x post -> Hx.
    assert (Hacc : fold_left report_step (pre ++ x :: post)
                     (Some false) <> None) by congruence.
    destruct (@followed_before _ report_step report_step_none _ _ _ _ Hacc)
      as (st & st' & _ & Hev & Hrest).
    rewrite Hrest in Hrep.
    assert (st' = true) as ->.
    { destruct st; destruct x as [e| |s n|c|c [|]|e|e [v|]|];
        try discriminate Hx; cbn in Hev; try discriminate Hev;
        now inversion Hev. }
    destruct post as [|y post']; [discriminate Hrep|].
    cbn [fold_left] in Hrep.
    destruct y; cbn in Hrep;
      try (rewrite (followed_none report_step report_step_none) in Hrep;
           discriminate Hrep).
    exists post'. reflexivity.
Qed.

(** The cleanup 7 of task 1 fails, then task 2 starts. *)
Lemma reach_cleanup_failed :
  reachable (mkRunner None false None true [AwaitSetup 2])
    [RunCalled 1; Snapshot false (Some 1); SetupStarted 1; RunCalled 2;
     SetupSettled 1 (Fulfilled (Some 7)); Snapshot false (Some 2);
     CleanupStarted 7; CleanupSettled 7 false; ErrorReported; SetupStarted 2].
Proof.
  apply (exec_init_reachable
           [CallRun 1; CallRun 2; Settle 0 (Fulfilled (Some 7));
            Settle 0 Rejected]).
  reflexivity.
Defined.

Lemma X5_witness :
  (exists p x,
      [RunCalled 1; Snapshot false (Some 1); SetupStarted 1; RunCalled 2;
       SetupSettled 1 (Fulfilled (Some 7)); Snapshot false (Some 2);
       CleanupStarted 7; CleanupSettled 7 false] = p ++ [x] /\
      failure x = true) /\
  (exists post', [ErrorReported; SetupStarted 2] = ErrorReported :: post').
Proof.
  split.
  - exact (proj1 (X5_one_report_per_failure reach_cleanup_failed)
             [RunCalled 1; Snapshot false (Some 1); SetupStarted 1; RunCalled 2;
              SetupSettled 1 (Fulfilled (Some 7)); Snapshot false (Some 2);
              CleanupStarted 7; CleanupSettled 7 false]
             [SetupStarted 2] eq_refl).
  - exact (proj2 (X5_one_report_per_failure reach_cleanup_failed)
             [RunCalled 1; Snapshot false (Some 1); SetupStarted 1; RunCalled 2;
              SetupSettled 1 (Fulfilled (Some 7)); Snapshot false (Some 2);
              CleanupStarted 7]
             (CleanupSettled 7 false) [ErrorReported; SetupStarted 2]
             eq_refl eq_refl).
Defined.

(** ** X6, X7: nothing is left behind *)

Lemma draining_then_clean c post :
  fold_left phase_step post (Some (Draining c)) = Some Clean ->
  exists m2 ok m3, post = m2 ++ CleanupSettled c ok :: m3.
Proof.
  induction post as [|ev post IH]; cbn [fold_left]; intros H;
    [discriminate H|].
  destruct ev as [e| |s n|c'|c' ok|e|e [[c'|]|]|]; cbn [phase_step] in H;
    try (destruct (IH H) as (m2 & ok' & m3 & ->);
         eexists (_ :: m2), ok', m3; reflexivity);
    try (rewrite (followed_none phase_step phase_step_none) in H;
         discriminate H).
  destruct (Nat.eqb_spec c' c) as [->|_].
  - exists [], ok, post. reflexivity.
  - rewrite (followed_none phase_step phase_step_none) in H. discriminate H.
Qed.

Lemma stored_then_clean c post :
  fold_left phase_step post (Some (Stored c)) = Some Clean ->
  exists m1 m2 ok m3,
    post = m1 ++ CleanupStarted c :: m2 ++ CleanupSettled c ok :: m3.
Proof.
  induction post as [|ev post IH]; cbn [fold_left]; intros H;
    [discriminate H|].
  destruct ev as [e| |s n|c'|c' ok|e|e [[c'|]|]|]; cbn [phase_step] in H;
    try (destruct (IH H) as (m1 & m2 & ok' & m3 & ->);
         eexists (_ :: m1), m2, ok', m3; reflexivity);
    try (rewrite (followed_none phase_step phase_step_none) in H;
         discriminate H).
  destruct (Nat.eqb_spec c' c) as [->|_].
  - destruct (draining_then_clean _ _ H) as (m2 & ok & m3 & ->).
    exists [], m2, ok, m3. reflexivity.
  - rewrite (followed_none phase_step phase_step_none) in H. discriminate H.
Qed.

Lemma clean_all_drained tr : phase_of tr = Some Clean -> all_drained tr.
Proof.
  intros Hph pre a c post ->. unfold phase_of, phase_from in Hph.
  assert (Hacc : fold_left phase_step
                   (pre ++ SetupSettled a (Fulfilled (Some c)) :: post)
                   (Some Clean) <> None) by congruence.
  destruct (@followed_before _ phase_step phase_step_none _ _ _ _ Hacc)
    as (ph & ph' & _ & Hev & Hrest).
  rewrite Hrest in Hph. cbn in Hev.
  destruct ph; try discriminate Hev. inversion Hev; subst ph'.
  exact (stored_then_clean _ _ Hph).
Qed.

Lemma idle_phase_clean r tr :
  Inv r tr ->
  currentCleanup r = None ->
  (forall s n c, ~ In (AwaitCleanup s n c) (loops r)) ->
  phase_of tr = Some Clean.
Proof.
  intros HI Hcc Hno. shapes r HI; cbn in Hcc.
  - now subst cc.
  - exfalso. apply (Hno s n fn). now left.
  - exact Hph.
  - now subst cc.
Qed.

(** X6.  In every reachable state where no cleanup is stored and none is
    running, every cleanup that a setup has ever returned has been
    started and has settled. *)
Theorem X6_nothing_stored_means_all_drained r tr :
  reachable r tr ->
  currentCleanup r = None ->
  (forall s n c, ~ In (AwaitCleanup s n c) (loops r)) ->
  all_drained tr.
Proof.
  intros Hr Hcc Hno. apply clean_all_drained.
  exact (idle_phase_clean (reachable_Inv Hr) Hcc Hno).
Qed.

Lemma X6_witness : all_drained log_A_then_B.
Proof.
  apply (X6_nothing_stored_means_all_drained reach_A_then_B).
  - reflexivity.
  - intros s n c [H|[]]. discriminate H.
Defined.

(** X7.  In every reachable state, after [stop()], when no other call
    follows and the awaited calls have settled four times or more, every
    cleanup that a setup has ever returned has been started and has
    settled: removing the component releases everything. *)
Theorem X7_stop_releases_everything r tr :
  reachable r tr ->
  forall os, 4 <= length os ->
  exists r1 ev1 ev2,
    stop r = (tt, r1, ev1) /\
    drive os r1 = (init, ev2) /\
    all_drained (tr ++ ev1 ++ ev2).
Proof.
  intros Hr os Hlen. pose proof (reachable_Inv Hr) as HI.
  destruct os as [|o1 [|o2 [|o3 [|o4 rest]]]]; cbn in Hlen; try lia.
  destruct (stop_served o1 o2 o3 o4 HI)
    as (r1 & ev1 & ev2 & Hstop & _ & _ & _ & Hd & _ & _).
  exists r1, ev1, ev2. split; [exact Hstop|].
  split; [now apply drive_after_four|].
  assert (Hs : step CallStop r = Some (r1, ev1))
    by (cbn [step]; rewrite Hstop; reflexivity).
  assert (Hr1 : reachable r1 (tr ++ ev1)) by (eapply reach_step; eauto).
  pose proof (drive_reachable _ Hr1 Hd) as Hr2.
  rewrite <- app_assoc in Hr2.
  apply clean_all_drained.
  apply (idle_phase_clean (reachable_Inv Hr2)); [reflexivity|].
  intros s n c [].
Qed.

Lemma X7_witness :
  exists r1 ev1 ev2,
    stop after_A_then_B = (tt, r1, ev1) /\
    drive [Fulfilled (Some 8); Rejected; Rejected; Rejected] r1 = (init, ev2) /\
    all_drained (log_A_then_B ++ ev1 ++ ev2).
Proof.
  apply (X7_stop_releases_everything reach_A_then_B
           [Fulfilled (Some 8); Rejected; Rejected; Rejected]).
  cbn. lia.
Defined.

(** ** X8: left alone, the runner goes idle *)

Lemma pump_closer o r tr :
  Inv r tr -> loops r <> [] ->
  distance (fst (pump o r)) < distance r.
Proof.
  intros HI Hne.
  assert (Hlen : 0 < length (loops r))
    by (destruct (loops r); [congruence | cbn; lia]).
  clear Hne. shapes r HI; cbn in Hlen; try lia.
  all: destruct o as [[c|]|]; try destruct cc as [c0|];
    try destruct le as [e1|]; try destruct sr; try destruct s;
    try destruct n as [e2|]; try congruence;
    try (destruct Hex; discriminate).
  all: sync; cbn; lia.
Qed.

Lemma pump_Inv o r tr :
  Inv r tr -> Inv (fst (pump o r)) (tr ++ snd (pump o r)).
Proof.
  intros HI. unfold pump.
  destruct (next_input o r) as [i|]; cbn; [|now rewrite app_nil_r].
  destruct (step i r) as [[r1 ev1]|] eqn:Hs; cbn.
  - eapply Inv_step; eauto.
  - now rewrite app_nil_r.
Qed.

Lemma drive_idle_within n :
  forall os r tr,
    Inv r tr -> distance r <= n -> n <= length os ->
    loops (fst (drive os r)) = [].
Proof.
  induction n as [|n IH]; intros os r tr HI Hd Hlen.
  - destruct (loops r) eqn:Hl.
    + now rewrite drive_idle.
    + exfalso. pose proof (pump_closer (Fulfilled None) HI) as H.
      rewrite Hl in H. specialize (H ltac:(discriminate)). lia.
  - destruct (loops r) eqn:Hl; [now rewrite drive_idle|].
    destruct os as [|o os]; cbn in Hlen; [lia|].
    cbn [drive].
    pose proof (pump_closer o HI) as Hc. rewrite Hl in Hc.
    specialize (Hc ltac:(discriminate)).
    pose proof (pump_Inv o HI) as HI1.
    destruct (pump o r) as [r1 ev1]. cbn in Hc, HI1.
    specialize (IH os r1 _ HI1 ltac:(lia) ltac:(lia)).
    destruct (drive os r1) as [r2 ev2]. exact IH.
Qed.

Lemma distance_bound r tr : Inv r tr -> distance r <= 5.
Proof.
  intros HI. shapes r HI; try destruct cc; try destruct le; try destruct sr;
    try destruct n; cbn; lia.
Qed.

(** X8.  In every reachable state, when no call of [run] or [stop] comes
    in, the runner is idle after at most five steps of the loop (awaited
    calls settling, [finally] callbacks running), whatever the awaited
    calls answer: [isLooping] is cleared and nothing is pending. *)
Theorem X8_idle_within_five_steps r tr :
  reachable r tr ->
  forall os, 5 <= length os ->
  exists r' evs,
    drive os r = (r', evs) /\
    loops r' = [] /\ isLooping r' = false /\
    lastEffect r' = None /\ stopRequested r' = false.
Proof.
  intros Hr os Hlen. pose proof (reachable_Inv Hr) as HI.
  pose proof (drive_idle_within os HI (distance_bound HI) Hlen) as Hl.
  destruct (drive os r) as [r' evs] eqn:Hd. cbn in Hl.
  exists r', evs. split; [reflexivity|]. split; [exact Hl|].
  pose proof (reachable_Inv (drive_reachable _ Hr Hd)) as HI'.
  shapes r' HI'; try discriminate Hl. auto.
Qed.

Lemma X8_witness :
  exists r' evs,
    drive [Fulfilled (Some 7); Rejected; Fulfilled (Some 8);
           Fulfilled None; Rejected] A_running_B_pending
    = (r', evs) /\
    loops r' = [] /\ isLooping r' = false /\
    lastEffect r' = None /\ stopRequested r' = false.
Proof.
  apply (X8_idle_within_five_steps reach_A_B_pending
           [Fulfilled (Some 7); Rejected; Fulfilled (Some 8);
            Fulfilled None; Rejected]).
  cbn. lia.
Defined.

(** ** X9, X10: what the setup returns *)

(** X9.  In every reachable state where the setup of [a] is awaited, a
    return value that is not a function leaves the runner in the very
    state a failure of the setup leaves it in, with the same further
    events and nothing stored; the two differ only by the error
    report. *)
Theorem X9_no_function_returned_is_no_cleanup r tr k a :
  reachable r tr ->
  nth_error (loops r) k = Some (AwaitSetup a) ->
  exists r' rest,
    step (Settle k (Fulfilled None)) r
    = Some (r', SetupSettled a (Fulfilled None) :: rest) /\
    step (Settle k Rejected) r
    = Some (r', SetupSettled a Rejected :: ErrorReported :: rest) /\
    currentCleanup r' = None /\
    ~ In ErrorReported rest.
Proof.
  intros Hr Hk. pose proof (reachable_Inv Hr) as HI.
  shapes r HI; destruct k as [|[|k]]; try discriminate;
    cbn in Hk; inversion Hk; subst.
  destruct le as [b|], sr; try (destruct Hex; discriminate);
    do 2 eexists; sync; (split; [reflexivity|]);
    (split; [reflexivity|]); cbn; split; try reflexivity; not_member.
Qed.

Lemma X9_witness :
  exists r' rest,
    step (Settle 0 (Fulfilled None)) A_running_B_pending
    = Some (r', SetupSettled 1 (Fulfilled None) :: rest) /\
    step (Settle 0 Rejected) A_running_B_pending
    = Some (r', SetupSettled 1 Rejected :: ErrorReported :: rest) /\
    currentCleanup r' = None /\
    ~ In ErrorReported rest.
Proof.
  exact (X9_no_function_returned_is_no_cleanup 0 reach_A_B_pending eq_refl).
Defined.

(** X10.  In every reachable state where the setup of [a] is awaited and
    it returns a function [c]: when neither a task nor a shutdown is
    pending, [c] is stored, nothing is invoked and the loop returns; when
    one is pending, the same step of the loop takes the request and
    starts [c] at once, leaving nothing stored. *)
Theorem X10_returned_cleanup_stored_or_started r tr k a c :
  reachable r tr ->
  nth_error (loops r) k = Some (AwaitSetup a) ->
  exists r',
    if negb (stopRequested r) && is_null (lastEffect r)
    then
      step (Settle k (Fulfilled (Some c))) r
      = Some (r', [SetupSettled a (Fulfilled (Some c))]) /\
      currentCleanup r' = Some c /\ loops r' = [Returned]
    else
      step (Settle k (Fulfilled (Some c))) r
      = Some (r', [SetupSettled a (Fulfilled (Some c));
                   Snapshot (stopRequested r) (lastEffect r);
                   CleanupStarted c]) /\
      currentCleanup r' = None /\
      loops r' = [AwaitCleanup (stopRequested r) (lastEffect r) c].
Proof.
  intros Hr Hk. pose proof (reachable_Inv Hr) as HI.
  shapes r HI; destruct k as [|[|k]]; try discriminate;
    cbn in Hk; inversion Hk; subst.
  destruct le as [b|], sr; try (destruct Hex; discriminate);
    eexists; sync; repeat split.
Qed.

Lemma X10_witness :
  exists r',
    step (Settle 0 (Fulfilled (Some 7))) A_running_B_pending
    = Some (r', [SetupSettled 1 (Fulfilled (Some 7));
                 Snapshot false (Some 2); CleanupStarted 7]) /\
    currentCleanup r' = None /\
    loops r' = [AwaitCleanup false (Some 2) 7].
Proof.
  exact (X10_returned_cleanup_stored_or_started 0 7 reach_A_B_pending eq_refl).
Defined.

(** ** X11, X12: through the hook *)

Lemma drive_settled os rest r r' ev :
  drive os r = (r', ev) -> loops r' = [] ->
  drive (os ++ rest) r = (r', ev).
Proof.
  intros Hd Hl. rewrite drive_app, Hd, drive_idle by exact Hl.
  now rewrite app_nil_r.
Qed.

(** X11.  A change of the dependencies while an effect is active (the
    runner idle with the cleanup [c] of that effect stored, [c] making no
    call of the runner): the hook calls [stop], which invokes [c], and
    then [run b], which only records [b].  When [c] returns, the
    activation awaits it and the setup of [b] is invoked in the step in
    which [c] settles, with success or failure.  When [c] throws at
    once, the error is reported inside [stop], the loop returns, and the
    setup of [b] is invoked by the [finally] callback. *)
Theorem X11_update_waits_for_cleanup r tr c b ss1 ss2 :
  reachable r tr ->
  loops r = [] -> currentCleanup r = Some c ->
  Forall (fun s => reentrant s = []) ss1 ->
  exists r2 ev1,
    exec_calls (combine (useSequentialEffect (Update b)) [ss1; ss2]) r
    = Some (r2, ev1 ++ [RunCalled b]) /\
    lastEffect r2 = Some b /\
    if throws_at_once ss1
    then
      ev1 = [StopCalled; Snapshot true None; CleanupStarted c;
             CleanupSettled c false; ErrorReported] /\
      loops r2 = [Returned] /\
      forall ss3, exists r3 more,
        finally_call 0 ss3 r2
        = Some (r3, Snapshot false (Some b) :: SetupStarted b :: more)
    else
      ev1 = [StopCalled; Snapshot true None; CleanupStarted c] /\
      loops r2 = [AwaitCleanup true None c] /\
      forall o ss3, exists r3 more,
        settle_call 0 o ss3 r2
        = Some (r3, cleanup_settled c o
                      ++ Snapshot false (Some b) :: SetupStarted b :: more).
Proof.
  intros Hr Hl Hc Hquiet. pose proof (reachable_Inv Hr) as HI.
  shapes r HI; try discriminate Hl. cbn in Hc. subst cc.
  cbn [useSequentialEffect combine exec_calls call].
  unfold stop_call, run_call. sync. cbn [fst snd newest loops length pred].
  destruct ss1 as [|[cs1 [|]] ss1]; cbn [throws_at_once throws].
  - (* no closure behaviour given: [c] returns *)
    cbn [carry_on]. sync. cbn [fst snd].
    rewrite carry_on_nothing_invoked by reflexivity.
    eexists _, [StopCalled; Snapshot true None; CleanupStarted c].
    split; [reflexivity|]. split; [reflexivity|].
    split; [reflexivity|]. split; [reflexivity|].
    intros o ss3. unfold settle_call.
    destruct o as [v|]; sync;
      match goal with
      | |- context [carry_on ?k ?ss ?x] =>
          destruct (carry_on_extends k ss x) as (more & Hm);
          destruct (carry_on k ss x) as [r3 ev3]; cbn in Hm; subst ev3;
          exists r3, more; reflexivity
      end.
  - (* [c] throws at once *)
    inversion Hquiet as [|? ? Hcs _]; subst. cbn in Hcs. subst cs1.
    cbn [carry_on ends_with_invocation rev app invocation snd fst
         reentrant throws reentrant_calls].
    sync. cbn [fst snd].
    rewrite carry_on_nothing_invoked by reflexivity. cbn [fst snd].
    sync. cbn [fst snd].
    rewrite carry_on_nothing_invoked by reflexivity.
    eexists _, [StopCalled; Snapshot true None; CleanupStarted c;
                CleanupSettled c false; ErrorReported].
    split; [reflexivity|]. split; [reflexivity|].
    split; [reflexivity|]. split; [reflexivity|].
    intros ss3. unfold finally_call. sync.
    match goal with
    | |- context [carry_on ?k ?ss ?x] =>
        destruct (carry_on_extends k ss x) as (more & Hm);
        destruct (carry_on k ss x) as [r3 ev3]; cbn in Hm; subst ev3;
        exists r3, more; reflexivity
    end.
  - (* [c] returns *)
    inversion Hquiet as [|? ? Hcs _]; subst. cbn in Hcs. subst cs1.
    cbn [carry_on ends_with_invocation rev app invocation snd fst
         reentrant throws reentrant_calls].
    sync. cbn [fst snd].
    rewrite carry_on_nothing_invoked by reflexivity.
    eexists _, [StopCalled; Snapshot true None; CleanupStarted c].
    split; [reflexivity|]. split; [reflexivity|].
    split; [reflexivity|]. split; [reflexivity|].
    intros o ss3. unfold settle_call.
    destruct o as [v|]; sync;
      match goal with
      | |- context [carry_on ?k ?ss ?x] =>
          destruct (carry_on_extends k ss x) as (more & Hm);
          destruct (carry_on k ss x) as [r3 ev3]; cbn in Hm; subst ev3;
          exists r3, more; reflexivity
      end.
Qed.

Lemma X11_witness :
  exists r2 ev1,
    exec_calls (combine (useSequentialEffect (Update 2))
                  [[mkSync [] true]; []]) idle_with_cleanup
    = Some (r2, ev1 ++ [RunCalled 2]) /\
    lastEffect r2 = Some 2 /\
    ev1 = [StopCalled; Snapshot true None; CleanupStarted 7;
           CleanupSettled 7 false; ErrorReported] /\
    loops r2 = [Returned] /\
    forall ss3, exists r3 more,
      finally_call 0 ss3 r2
      = Some (r3, Snapshot false (Some 2) :: SetupStarted 2 :: more).
Proof.
  apply (@X11_update_waits_for_cleanup _ _ 7 2 [mkSync [] true] []
           reach_A_settled); [reflexivity | reflexivity |].
  constructor; [reflexivity | constructor].
Defined.

(** X12.  A component mounted on a fresh runner with the effect [e] and
    then removed, whether the removal comes while the setup of [e] is
    awaited, after it has settled but before the [finally] callback, or
    when the runner is idle again: once the awaited calls have settled
    three times or more the runner is back in its initial state, and the
    closures invoked are the setup of [e] and then, if it returned one,
    its cleanup, each once and nothing else. *)
Theorem X12_mount_then_unmount e o os :
  3 <= length os ->
  (exists r1 ev1 ev2,
      exec (useSequentialEffect (Mount e) ++ [Settle 0 o]
              ++ useSequentialEffect Unmount) init = Some (r1, ev1) /\
      drive os r1 = (init, ev2) /\
      filter invocation (ev1 ++ ev2) = mount_unmount_calls e o) /\
  (exists r1 ev1 ev2,
      exec (useSequentialEffect (Mount e) ++ useSequentialEffect Unmount
              ++ [Settle 0 o]) init = Some (r1, ev1) /\
      drive os r1 = (init, ev2) /\
      filter invocation (ev1 ++ ev2) = mount_unmount_calls e o) /\
  (exists r1 ev1 ev2,
      exec (useSequentialEffect (Mount e) ++ [Settle 0 o; Finally 0]
              ++ useSequentialEffect Unmount) init = Some (r1, ev1) /\
      drive os r1 = (init, ev2) /\
      filter invocation (ev1 ++ ev2) = mount_unmount_calls e o).
Proof.
  intros Hlen.
  destruct os as [|o1 [|o2 [|o3 rest]]]; cbn in Hlen; try lia.
  change (o1 :: o2 :: o3 :: rest) with ([o1; o2; o3] ++ rest).
  split; [|split].
  all: destruct o as [[c|]|], o1 as [v1|], o2 as [v2|], o3 as [v3|];
      do 3 eexists;
      (split; [cbn [useSequentialEffect exec app]; unfold init; sync;
               reflexivity|]);
      (split; [apply drive_settled; [sync; reflexivity | reflexivity]|]);
      reflexivity.
Qed.

Lemma X12_witness :
  (exists r1 ev1 ev2,
      exec (useSequentialEffect (Mount 1) ++ [Settle 0 (Fulfilled (Some 7))]
              ++ useSequentialEffect Unmount) init = Some (r1, ev1) /\
      drive [Fulfilled None; Rejected; Fulfilled None] r1 = (init, ev2) /\
      filter invocation (ev1 ++ ev2)
      = mount_unmount_calls 1 (Fulfilled (Some 7))) /\
  (exists r1 ev1 ev2,
      exec (useSequentialEffect (Mount 1) ++ useSequentialEffect Unmount
              ++ [Settle 0 (Fulfilled (Some 7))]) init = Some (r1, ev1) /\
      drive [Fulfilled None; Rejected; Fulfilled None] r1 = (init, ev2) /\
      filter invocation (ev1 ++ ev2)
      = mount_unmount_calls 1 (Fulfilled (Some 7))) /\
  (exists r1 ev1 ev2,
      exec (useSequentialEffect (Mount 1)
              ++ [Settle 0 (Fulfilled (Some 7)); Finally 0]
              ++ useSequentialEffect Unmount) init = Some (r1, ev1) /\
      drive [Fulfilled None; Rejected; Fulfilled None] r1 = (init, ev2) /\
      filter invocation (ev1 ++ ev2)
      = mount_unmount_calls 1 (Fulfilled (Some 7))).
Proof.
  apply (@X12_mount_then_unmount 1 (Fulfilled (Some 7))
           [Fulfilled None; Rejected; Fulfilled None]).
  cbn. lia.
Defined.


(** ** X13: no more starts than submissions *)

Lemma times_app p l l' : times p (l ++ l') = times p l + times p l'.
Proof. unfold times. now rewrite filter_app, length_app. Qed.

Lemma starts_step e r tr i r' evs :
  Inv r tr ->
  times (is_start e) tr + owed_starts e r <= times (is_run e) tr ->
  step i r = Some (r', evs) ->
  times (is_start e) (tr ++ evs) + owed_starts e r'
  <= times (is_run e) (tr ++ evs).
Proof.
  intros HI Hc Hs. rewrite !times_app. revert Hc. shapes r HI.
  all: unfold owed_starts, captured_of; cbn [loops lastEffect].
  all: destruct i as [x| |k o|k]; try destruct k as [|[|k]];
    try destruct o as [[c|]|]; try destruct cc as [c0|];
    try destruct le as [e1|]; try destruct sr; try destruct s;
    try destruct n as [e2|];
    sync_in Hs; try discriminate; inversion Hs; subst; clear Hs.
  all: try (destruct Hex; discriminate).
  all: try congruence.
  all: unfold times; cbn.
  all: repeat match goal with
         | |- context [Nat.eqb ?a ?b] => destruct (Nat.eqb a b)
         end; cbn; lia.
Qed.

(** X13.  In the log of every reachable state no task has been started
    more often than it has been handed to [run]. *)
Theorem X13_no_more_starts_than_runs r tr e :
  reachable r tr ->
  times (is_start e) tr <= times (is_run e) tr.
Proof.
  intros Hr.
  enough (times (is_start e) tr + owed_starts e r <= times (is_run e) tr)
    by lia.
  induction Hr as [|r tr i r' evs Hr IH Hs]; [cbn; lia|].
  eapply starts_step; eauto. apply reachable_Inv; assumption.
Qed.

Lemma X13_witness :
  times (is_start 2) log_A_then_B <= times (is_run 2) log_A_then_B.
Proof. exact (X13_no_more_starts_than_runs 2 reach_A_then_B). Defined.
